(** * Jarvis voice assistant: command interpretation and summaries

    A shallow embedding of the command engine of the repository:

    - [src/services/voiceProcessor.js]: [parseCommand], [processCommand]
      and the per-intent handlers;
    - [src/services/aiService.js]: [summarizeWithAI], [prioritizeItems],
      [generateEmailSummary], [generateCalendarSummary],
      [findScheduleConflicts], [formatTime], [calculateDuration].

    Conventions of the embedding.

    - A JavaScript string is a [string]: a sequence of code units below
      256.  [toLowerCase], [trim] and the regular-expression classes are
      given on that range.
    - A [Date] is its time value, an integer number of milliseconds since
      the epoch ([Z]); invalid dates are outside the model.  Local time is
      the time value shifted by a fixed offset, part of the runtime [Env]
      together with the clock read by [new Date()].
    - [Array.prototype.sort] is stable (ECMAScript 2019); it is modelled by
      a stable insertion sort, see [JsArray.sort]; for a consistent
      comparator every stable sort gives the same array.
    - A promise is its settlement, a [Completion]; [console.error] appends
      to a console threaded through the dispatcher. *)

From Stdlib Require Import ZArith Ascii String List Lia Bool.
From Stdlib Require Import Permutation Sorted DecimalString QArith_base.
From stdpp Require Import base list sorting strings gmap.

Local Open Scope Z_scope.

(** ** JavaScript strings *)

Module Js.

Definition code (c : ascii) : N := N_of_ascii c.

(** [String.prototype.toLowerCase] on one code unit: A-Z, and the
    Latin-1 capitals U+00C0-U+00DE except the multiplication sign. *)
Definition lowerChar (c : ascii) : ascii :=
  let n := code c in
  if ((65 <=? n) && (n <=? 90))%N then ascii_of_N (n + 32)
  else if ((192 <=? n) && (n <=? 222) && negb (n =? 215))%N
       then ascii_of_N (n + 32)
  else c.

Fixpoint toLowerCase (s : string) : string :=
  match s with
  | EmptyString => EmptyString
  | String c s' => String (lowerChar c) (toLowerCase s')
  end.

(** WhiteSpace and LineTerminator code units: TAB, LF, VT, FF, CR,
    SPACE, NBSP.  It is both what [trim] strips and the class [\s]. *)
Definition isSpace (c : ascii) : bool :=
  let n := code c in
  (((9 <=? n) && (n <=? 13)) || (n =? 32) || (n =? 160))%N.

Fixpoint trimStart (s : string) : string :=
  match s with
  | EmptyString => EmptyString
  | String c s' => if isSpace c then trimStart s' else s
  end.

Fixpoint trimEnd (s : string) : string :=
  match s with
  | EmptyString => EmptyString
  | String c s' =>
      match trimEnd s' with
      | EmptyString => if isSpace c then EmptyString else String c EmptyString
      | t => String c t
      end
  end.

Definition trim (s : string) : string := trimEnd (trimStart s).

(** [s.includes(pat)] *)
Fixpoint includes (s pat : string) : bool :=
  String.prefix pat s ||
  match s with
  | EmptyString => false
  | String _ s' => includes s' pat
  end.

(** [s.substring(0, n)] *)
Definition substring0 (n : nat) (s : string) : string := String.substring 0 n s.

(** Template-literal conversion of an integer. *)
Definition ofZ (z : Z) : string := NilZero.string_of_int (Z.to_int z).
Definition ofNat (n : nat) : string := ofZ (Z.of_nat n).

(** [arr.join(sep)] *)
Fixpoint join (sep : string) (l : list string) : string :=
  match l with
  | [] => ""
  | [x] => x
  | x :: l' => x +:+ sep +:+ join sep l'
  end.

(** The line feed and the double quote of the source's literals. *)
Definition nl : string := String (ascii_of_N 10) EmptyString.
Definition dq : string := String (ascii_of_N 34) EmptyString.
Definition quoted (s : string) : string := dq +:+ s +:+ dq.

(** Concatenation of the pieces a loop appends to its accumulator. *)
Definition concat (l : list string) : string := foldr String.append "" l.

End Js.

(** ** Regular expressions

    The fragment used by [parseCommand]: literals under flag [i], classes,
    sequence, alternation, greedy and lazy repetition, one capture group,
    lookahead and [$].  The matcher is the backtracking matcher of the
    language definition, in continuation-passing style. *)

Module Regex.

Inductive regex : Type :=
| Empty
| Char (c : ascii)
| CharClass (p : ascii → bool)
| Seq (r1 r2 : regex)
| Alt (r1 r2 : regex)
| Star (greedy : bool) (r : regex)
| Group (r : regex)
| Ahead (r : regex)
| EndOfInput.

(** [None]: no match.  [Some cap]: a match, with the text of group 1
    when the group took part. *)
Definition result : Type := option (option string).
Definition cont : Type := string → option string → result.

Definition orElse (a : result) (b : unit → result) : result :=
  match a with
  | None => b tt
  | Some _ => a
  end.

Fixpoint run (r : regex) (s : string) (cap : option string) (k : cont)
  {struct r} : result :=
  match r with
  | Empty => k s cap
  | Char c =>
      match s with
      | String x s' => if Ascii.eqb (Js.lowerChar x) (Js.lowerChar c) then k s' cap else None
      | EmptyString => None
      end
  | CharClass p =>
      match s with
      | String x s' => if p x then k s' cap else None
      | EmptyString => None
      end
  | Seq r1 r2 => run r1 s cap (fun s' cap' => run r2 s' cap' k)
  | Alt r1 r2 => orElse (run r1 s cap k) (fun _ => run r2 s cap k)
  | Star greedy r' =>
      (fix loop (n : nat) (s : string) (cap : option string) {struct n} : result :=
         let again (_ : unit) : result :=
           match n with
           | O => None
           | S n' =>
               run r' s cap (fun s' cap' =>
                 (* an iteration that consumes nothing is rejected *)
                 if (String.length s' <? String.length s)%nat
                 then loop n' s' cap' else None)
           end in
         if greedy then orElse (again tt) (fun _ => k s cap)
         else orElse (k s cap) again)
        (String.length s) s cap
  | Group r' =>
      run r' s cap (fun s' _ =>
        k s' (Some (Js.substring0 (String.length s - String.length s') s)))
  | Ahead r' =>
      match run r' s cap (fun _ cap' => Some cap') with
      | None => None
      | Some cap' => k s cap'
      end
  | EndOfInput =>
      match s with
      | EmptyString => k s cap
      | String _ _ => None
      end
  end.

(** [s.match(r)] for a regex without flag [g]: the leftmost match. *)
Fixpoint exec (r : regex) (s : string) : result :=
  match run r s None (fun _ cap => Some cap) with
  | Some cap => Some cap
  | None =>
      match s with
      | EmptyString => None
      | String _ s' => exec r s'
      end
  end.

(** [m ? m[1] : dflt] *)
Definition group1 (m : result) : option string :=
  match m with
  | Some (Some g) => Some g
  | _ => None
  end.

Fixpoint lit (s : string) : regex :=
  match s with
  | EmptyString => Empty
  | String c EmptyString => Char c
  | String c s' => Seq (Char c) (lit s')
  end.

Definition opt (r : regex) : regex := Alt r Empty.
Definition plus (r : regex) : regex := Seq r (Star true r).
Fixpoint alts (l : list string) : regex :=
  match l with
  | [] => CharClass (fun _ => false)
  | [x] => lit x
  | x :: l' => Alt (lit x) (alts l')
  end.

Definition space : regex := CharClass Js.isSpace.
Definition digit : regex :=
  CharClass (fun c => ((48 <=? Js.code c) && (Js.code c <=? 57))%N).
(** [.] excludes the line terminators LF and CR. *)
Definition dot : regex :=
  CharClass (fun c => negb ((Js.code c =? 10) || (Js.code c =? 13))%N).
Definition oneOf (cs : string) : regex :=
  CharClass (fun c => Js.includes cs (String (Js.lowerChar c) EmptyString)).

End Regex.

(** ** The intent parser ([voiceProcessor.js]) *)

(** [COMMAND_TYPES] *)
Inductive CommandType : Type :=
| READ_EMAILS | READ_AGENDA | IGNORE | RESPOND | RESPOND_LATER
| SET_IMPORTANT | CALENDAR_RESPONSE | SCHEDULE | REPRIORITIZE | UNKNOWN.

Global Instance CommandType_eq_dec : EqDecision CommandType.
Proof. solve_decision. Defined.

(** The [payload] object; its shape depends on the command type. *)
Inductive Payload : Type :=
| NoPayload
| MessagePayload (message : string)
| TimePayload (time : option string)
| ImportantPayload (isImportant : bool)
| ResponsePayload (response : string)
| SchedulePayload (what when withWhom where_ : string)
| IdPayload (id : string).

Record ParsedCommand : Type := {
  type : CommandType;
  payload : Payload
}.

Module Patterns.
Import Regex.

(** The pattern of [responseMatch]: [respond], an optional colon, any
    white space, then group 1, the rest of the line (greedy). *)
Definition respond : regex :=
  Seq (lit "respond") (Seq (opt (Char ":"%char)) (Seq (Star true space) (Group (Star true dot)))).

(** The pattern "/later\s+at\s+(\d+(?::\d+)?(?:\s*[ap]m)?)/i" *)
Definition later : regex :=
  Seq (lit "later") (Seq (plus space) (Seq (lit "at") (Seq (plus space)
    (Group (Seq (plus digit)
           (Seq (opt (Seq (Char ":"%char) (plus digit)))
                (opt (Seq (Star true space) (Seq (oneOf "ap") (Char "m"%char)))))))))).

(** The pattern "/schedule\s+(.*?)(?=\s+(?:at|on|with|tomorrow|today|in|for))/i" *)
Definition what : regex :=
  Seq (lit "schedule") (Seq (plus space) (Seq (Group (Star false dot))
    (Ahead (Seq (plus space)
                (alts ["at"; "on"; "with"; "tomorrow"; "today"; "in"; "for"]))))).

(** The pattern "/(?:at|on)\s+(.*?)(?=\s+(?:with|at|in|for)|$)/i" *)
Definition when : regex :=
  Seq (alts ["at"; "on"]) (Seq (plus space) (Seq (Group (Star false dot))
    (Ahead (Alt (Seq (plus space) (alts ["with"; "at"; "in"; "for"])) EndOfInput)))).

(** The pattern "/with\s+(.*?)(?=\s+(?:at|in|for)|$)/i" *)
Definition withWhom : regex :=
  Seq (lit "with") (Seq (plus space) (Seq (Group (Star false dot))
    (Ahead (Alt (Seq (plus space) (alts ["at"; "in"; "for"])) EndOfInput)))).

(** The pattern "/(?:at|in)\s+(.*?)(?=\s+for|$)/i" *)
Definition where_ : regex :=
  Seq (alts ["at"; "in"]) (Seq (plus space) (Seq (Group (Star false dot))
    (Ahead (Alt (Seq (plus space) (lit "for")) EndOfInput)))).

(** The pattern of [idMatch]: [reprioritize], white space, then group 1,
    the rest of the line (greedy). *)
Definition reprioritize : regex :=
  Seq (lit "reprioritize") (Seq (plus space) (Group (Star true dot))).

End Patterns.

(** [m ? m[1] : ''] *)
Definition captureOrEmpty (r : Regex.regex) (command : string) : string :=
  default "" (Regex.group1 (Regex.exec r command)).

(** The [response] entity of a calendar response: three assignments in
    sequence over the initial value ['accept']. *)
Definition calendarResponse (command : string) : string :=
  let response := "accept" in
  let response := if Js.includes command "decline" then "decline" else response in
  let response := if Js.includes command "maybe" then "maybe" else response in
  let response := if Js.includes command "find me a new time" then "reschedule" else response in
  response.

Definition parseCommand (command : string) : ParsedCommand :=
  let command := Js.trim (Js.toLowerCase command) in
  if Js.includes command "read me my emails" || Js.includes command "read my emails" then
    {| type := READ_EMAILS; payload := NoPayload |}
  else if Js.includes command "tell me what i have to do today" ||
          Js.includes command "what do i have to do today" ||
          Js.includes command "read my agenda" ||
          Js.includes command "read my calendar" then
    {| type := READ_AGENDA; payload := NoPayload |}
  else if Js.includes command "ignore" then
    {| type := IGNORE; payload := NoPayload |}
  else if Js.includes command "respond" && negb (Js.includes command "respond later") then
    let message := captureOrEmpty Patterns.respond command in
    {| type := RESPOND; payload := MessagePayload message |}
  else if Js.includes command "respond later" then
    let time := Regex.group1 (Regex.exec Patterns.later command) in
    {| type := RESPOND_LATER; payload := TimePayload time |}
  else if Js.includes command "mark" &&
          (Js.includes command "important" || Js.includes command "not important") then
    let isImportant := negb (Js.includes command "not important") in
    {| type := SET_IMPORTANT; payload := ImportantPayload isImportant |}
  else if Js.includes command "accept" ||
          Js.includes command "decline" ||
          Js.includes command "maybe" ||
          Js.includes command "find me a new time" then
    {| type := CALENDAR_RESPONSE; payload := ResponsePayload (calendarResponse command) |}
  else if Js.includes command "schedule" then
    let what := captureOrEmpty Patterns.what command in
    let when := captureOrEmpty Patterns.when command in
    let withWhom := captureOrEmpty Patterns.withWhom command in
    let where_ := captureOrEmpty Patterns.where_ command in
    {| type := SCHEDULE; payload := SchedulePayload what when withWhom where_ |}
  else if Js.includes command "reprioritize" then
    let id := captureOrEmpty Patterns.reprioritize command in
    {| type := REPRIORITIZE; payload := IdPayload id |}
  else
    {| type := UNKNOWN; payload := NoPayload |}.


(** ** Runtime environment, dates and sorting *)

(** What the code reads from its runtime rather than from its arguments:
    the clock behind [new Date()] and the local time zone behind
    [getHours], [getMinutes] and [setHours]. *)
Record Env : Type := {
  now : Z;          (* time value of [new Date()], in milliseconds *)
  tzOffset : Z      (* local time minus UTC, in milliseconds *)
}.

Module Date.

Definition msPerMinute : Z := 60000.
Definition msPerHour : Z := 3600000.
Definition msPerDay : Z := 86400000.

Definition localTime (env : Env) (t : Z) : Z := t + tzOffset env.

Definition getHours (env : Env) (t : Z) : Z := (localTime env t / msPerHour) mod 24.
Definition getMinutes (env : Env) (t : Z) : Z := (localTime env t / msPerMinute) mod 60.

(** [d.setHours(0, 0, 0, 0)]: the local midnight at or before [t]. *)
Definition startOfDay (env : Env) (t : Z) : Z := t - (localTime env t) mod msPerDay.

(** [d.setDate(d.getDate() + n)] *)
Definition addDays (t : Z) (n : Z) : Z := t + n * msPerDay.

End Date.

Module JsArray.
Section Sort.
Context {A : Type} (comparefn : A → A → Z).

(** [x] is placed after the elements it must follow ([comparefn x y > 0])
    and before the first other one; [x] comes from the left of [l] in
    the input, so equal elements keep their order. *)
Fixpoint insert (x : A) (l : list A) : list A :=
  match l with
  | [] => [x]
  | y :: l' => if 0 <? comparefn x y then y :: insert x l' else x :: l
  end.

(** [[...l].sort(comparefn)] *)
Definition sort (l : list A) : list A := foldr insert [] l.
End Sort.

(** [l.slice(0, end)], [end] being [undefined] when [None]. *)
Definition slice0 {A : Type} (end_ : option nat) (l : list A) : list A :=
  match end_ with
  | Some n => take n l
  | None => l
  end.
End JsArray.

(** ** Data model *)

Module Contact.
Record t : Type := { name : string; email : string }.
End Contact.

Module Email.
Record t : Type := {
  id : string;
  from : Contact.t;
  subject : string;
  body : string;
  timestamp : Z;
  isRead : bool;
  isImportant : bool;
  hasAttachments : bool
}.
End Email.

(** An absent [location] or [description] is the empty string (both are
    falsy and printed only when truthy); absent [attendees] is [[]]. *)
Module Event.
Record t : Type := {
  id : string;
  title : string;
  start : Z;
  end_ : Z;
  location : string;
  attendees : list string;
  description : string;
  responseStatus : string;
  importance : string
}.
End Event.

(** The values of the [summaryLength] select of the settings panel. *)
Inductive SummaryLength : Type := concise | medium | detailed | everything.

Global Instance SummaryLength_eq_dec : EqDecision SummaryLength.
Proof. solve_decision. Defined.

(** The fields of [settings] the engine reads. *)
Record Settings : Type := {
  summaryLength : SummaryLength;
  priorityContacts : list string;
  reminderDefaultTime : Z
}.

Module Conflict.
Record t : Type := {
  event1 : Event.t;
  event2 : Event.t;
  overlapStart : Z;
  overlapEnd : Z;
  duration : Q      (* [(overlapEnd - overlapStart) / (1000 * 60)], in minutes *)
}.
End Conflict.

(** ** Time and interval utilities ([aiService.js]) *)

Definition formatTime (env : Env) (date : Z) : string :=
  let hours := Date.getHours env date in
  let minutes := Date.getMinutes env date in
  let ampm := if 12 <=? hours then "pm" else "am" in
  let hours12 := if hours mod 12 =? 0 then 12 else hours mod 12 in
  let minutesStr := if minutes <? 10 then "0" +:+ Js.ofZ minutes else Js.ofZ minutes in
  Js.ofZ hours12 +:+ ":" +:+ minutesStr +:+ ampm.

(** [Math.round((endDate - startDate) / (1000 * 60))]: halves round up. *)
Definition roundMinutes (ms : Z) : Z := (ms + 30000) / 60000.

Definition calculateDuration (start end_ : Z) : string :=
  let durationMinutes := roundMinutes (end_ - start) in
  if durationMinutes <? 60 then
    Js.ofZ durationMinutes +:+ " minutes"
  else
    let hours := durationMinutes / 60 in
    let minutes := Z.rem durationMinutes 60 in
    if minutes =? 0 then
      Js.ofZ hours +:+ " hour" +:+ (if hours =? 1 then "" else "s")
    else
      Js.ofZ hours +:+ " hour" +:+ (if hours =? 1 then "" else "s") +:+
      " and " +:+ Js.ofZ minutes +:+ " minute" +:+ (if minutes =? 1 then "" else "s").

(** One pass of the inner loop body: the overlap test on [events[i]] and
    [events[j]], and the [push]. *)
Definition checkPair (events : list Event.t) (i j : nat)
    (conflicts : list Conflict.t) : list Conflict.t :=
  match events !! i, events !! j with
  | Some event1, Some event2 =>
      let start1 := Event.start event1 in
      let end1 := Event.end_ event1 in
      let start2 := Event.start event2 in
      let end2 := Event.end_ event2 in
      if (start1 <? end2) && (start2 <? end1) then
        let overlapStart := if start1 >? start2 then start1 else start2 in
        let overlapEnd := if end1 <? end2 then end1 else end2 in
        conflicts ++ [ {| Conflict.event1 := event1;
                          Conflict.event2 := event2;
                          Conflict.overlapStart := overlapStart;
                          Conflict.overlapEnd := overlapEnd;
                          Conflict.duration := Qmake (overlapEnd - overlapStart) 60000 |} ]
      else conflicts
  | _, _ => conflicts   (* not reached: both indices are below [events.length] *)
  end.

(** [for (i = 0; i < n; i++) for (j = i + 1; j < n; j++) ...] *)
Definition findScheduleConflicts (events : list Event.t) : list Conflict.t :=
  let n := length events in
  foldl (fun conflicts i =>
           foldl (fun conflicts j => checkPair events i j conflicts)
                 conflicts (seq (i + 1) (n - (i + 1))))
        [] (seq 0 n).

(** ** Priority ranker ([aiService.js]) *)

(** What [prioritizeItems] reads of an item. *)
Class Prioritizable (A : Type) : Type := {
  itemFrom : A → option Contact.t;
  itemIsImportant : A → bool;
  itemTimestamp : A → Z
}.

Global Instance Email_Prioritizable : Prioritizable Email.t := {|
  itemFrom e := Some (Email.from e);
  itemIsImportant := Email.isImportant;
  itemTimestamp := Email.timestamp
|}.

Section Prioritize.
Context {A : Type} `{Prioritizable A}.

(** [a.from && settings.priorityContacts.includes(a.from.email)] *)
Definition isPriorityContact (settings : Settings) (a : A) : bool :=
  match itemFrom a with
  | Some c => bool_decide (Contact.email c ∈ priorityContacts settings)
  | None => false
  end.

Definition prioritizeCompare (settings : Settings) (a b : A) : Z :=
  let aPriorityContact := isPriorityContact settings a in
  let bPriorityContact := isPriorityContact settings b in
  if aPriorityContact && negb bPriorityContact then -1
  else if negb aPriorityContact && bPriorityContact then 1
  else if itemIsImportant a && negb (itemIsImportant b) then -1
  else if negb (itemIsImportant a) && itemIsImportant b then 1
  else itemTimestamp b - itemTimestamp a.

Definition prioritizeItems (items : list A) (settings : Settings) : list A :=
  JsArray.sort (prioritizeCompare settings) items.
End Prioritize.

(** ** Summarizer ([aiService.js]) *)

(** The comparator of the sort inside [generateEmailSummary]. *)
Definition emailCompare (a b : Email.t) : Z :=
  if Email.isImportant a && negb (Email.isImportant b) then -1
  else if negb (Email.isImportant a) && Email.isImportant b then 1
  else Email.timestamp b - Email.timestamp a.

(** The object [limits]; ['everything'] is not a key of it. *)
Definition limits (l : SummaryLength) : option nat :=
  match l with
  | concise => Some 3%nat
  | medium => Some 5%nat
  | detailed => Some 7%nat
  | everything => None
  end.

(** The value of the local [emailsToSummarize] when the narration starts. *)
Definition emailsToSummarize (emails : list Email.t) (settings : Settings)
  : list Email.t :=
  let emailsToSummarize := emails in
  if decide (summaryLength settings ≠ everything) then
    let emailsToSummarize := JsArray.sort emailCompare emailsToSummarize in
    if decide (summaryLength settings ≠ everything) then
      JsArray.slice0 (limits (summaryLength settings)) emailsToSummarize
    else emailsToSummarize
  else emailsToSummarize.

(** The opening of the email summary, up to the blank line. *)
Definition emailIntro (emails : list Email.t) : string :=
  let unreadCount := length (List.filter (fun email => negb (Email.isRead email)) emails) in
  let importantCount := length (List.filter Email.isImportant emails) in
  let summary :=
    "You have " +:+ Js.ofNat (length emails) +:+ " emails in your inbox, " +:+
    Js.ofNat unreadCount +:+ " unread" in
  let summary :=
    if (0 <? importantCount)%nat
    then summary +:+ ", with " +:+ Js.ofNat importantCount +:+ " marked as important"
    else summary in
  summary +:+ ". Would you like to hear about them?" +:+ Js.nl +:+ Js.nl.

(** [s.length > 100 ? s.substring(0, 100) + '...' : s] *)
Definition preview (s : string) : string :=
  if (100 <? String.length s)%nat then Js.substring0 100 s +:+ "..." else s.

Definition isDetailed (settings : Settings) : bool :=
  bool_decide (summaryLength settings = detailed) ||
  bool_decide (summaryLength settings = everything).

(** What one turn of the [forEach] over [emailsToSummarize] appends. *)
Definition narrateEmail (env : Env) (settings : Settings)
    (index : nat) (email : Email.t) : string :=
  let timeString := formatTime env (Email.timestamp email) in
  let importanceMarker := if Email.isImportant email then " (Important)" else "" in
  let readStatus := if Email.isRead email then "" else " (Unread)" in
  let attachmentInfo := if Email.hasAttachments email then " (Has attachments)" else "" in
  let summary :=
    Js.ofNat (index + 1) +:+ ". From " +:+ Contact.name (Email.from email) +:+
    " at " +:+ timeString +:+ ", subject: " +:+ Email.subject email +:+
    importanceMarker +:+ readStatus +:+ attachmentInfo +:+ "." +:+ Js.nl in
  let summary :=
    if isDetailed settings
    then summary +:+ "   Preview: " +:+ preview (Email.body email) +:+ Js.nl
    else summary in
  summary +:+ Js.nl.

Definition emailOutro : string :=
  "You can say " +:+ Js.quoted "ignore" +:+ ", " +:+ Js.quoted "respond now" +:+ ", " +:+
  Js.quoted "respond later" +:+ ", or " +:+ Js.quoted "mark as important" +:+
  " after each email.".

Definition generateEmailSummary (env : Env) (emails : list Email.t)
    (settings : Settings) : string :=
  emailIntro emails +:+
  Js.concat (imap (narrateEmail env settings) (emailsToSummarize emails settings)) +:+
  emailOutro.

Definition plural (n : nat) : string := if (n =? 1)%nat then "" else "s".

(** One turn of the [forEach] over [todayEvents]. *)
Definition narrateTodayEvent (env : Env) (settings : Settings)
    (index : nat) (event : Event.t) : string :=
  let startTime := formatTime env (Event.start event) in
  let duration := calculateDuration (Event.start event) (Event.end_ event) in
  let location :=
    if bool_decide (Event.location event ≠ "") then " at " +:+ Event.location event else "" in
  let responseStatus :=
    if bool_decide (Event.responseStatus event = "needsAction")
    then " (You haven't responded to this invitation yet)" else "" in
  let summary :=
    Js.ofNat (index + 1) +:+ ". At " +:+ startTime +:+ ": " +:+ Event.title event +:+
    location +:+ ", for " +:+ duration +:+ responseStatus +:+ "." +:+ Js.nl in
  let summary :=
    if isDetailed settings then
      let summary :=
        if (0 <? length (Event.attendees event))%nat
        then summary +:+ "   With: " +:+ Js.join ", " (Event.attendees event) +:+ Js.nl
        else summary in
      if bool_decide (Event.description event ≠ "")
      then summary +:+ "   Details: " +:+ preview (Event.description event) +:+ Js.nl
      else summary
    else summary in
  summary +:+ Js.nl.

(** One turn of the [forEach] over [tomorrowEvents]. *)
Definition narrateTomorrowEvent (env : Env) (index : nat) (event : Event.t) : string :=
  let startTime := formatTime env (Event.start event) in
  let location :=
    if bool_decide (Event.location event ≠ "") then " at " +:+ Event.location event else "" in
  Js.ofNat (index + 1) +:+ ". At " +:+ startTime +:+ ": " +:+ Event.title event +:+
  location +:+ "." +:+ Js.nl.

Definition narrateConflict (env : Env) (index : nat) (conflict : Conflict.t) : string :=
  Js.ofNat (index + 1) +:+ ". " +:+ Js.quoted (Event.title (Conflict.event1 conflict)) +:+
  " and " +:+ Js.quoted (Event.title (Conflict.event2 conflict)) +:+ " overlap at " +:+
  formatTime env (Conflict.overlapStart conflict) +:+ "." +:+ Js.nl.

Definition narratePriority (env : Env) (index : nat) (event : Event.t) : string :=
  Js.ofNat (index + 1) +:+ ". " +:+ Event.title event +:+ " at " +:+
  formatTime env (Event.start event) +:+ "." +:+ Js.nl.

Definition calendarOutro : string :=
  "You can say " +:+ Js.quoted "accept" +:+ ", " +:+ Js.quoted "decline" +:+ ", " +:+
  Js.quoted "maybe" +:+ ", or " +:+ Js.quoted "find me a new time" +:+
  " for any meeting that needs a response.".

Definition generateCalendarSummary (env : Env) (events : list Event.t)
    (settings : Settings) : string :=
  let sortedEvents :=
    JsArray.sort (fun a b => Event.start a - Event.start b) events in
  let today := Date.startOfDay env (now env) in
  let tomorrow := Date.addDays today 1 in
  let dayAfterTomorrow := Date.addDays today 2 in
  let todayEvents :=
    List.filter (fun event => (today <=? Event.start event) && (Event.start event <? tomorrow))
                sortedEvents in
  let tomorrowEvents :=
    List.filter (fun event => (tomorrow <=? Event.start event) &&
                              (Event.start event <? dayAfterTomorrow))
                sortedEvents in
  let summary := "" in
  let summary :=
    if (0 <? length todayEvents)%nat then
      summary +:+ "You have " +:+ Js.ofNat (length todayEvents) +:+ " event" +:+
      plural (length todayEvents) +:+ " scheduled for today." +:+ Js.nl +:+ Js.nl +:+
      Js.concat (imap (narrateTodayEvent env settings) todayEvents)
    else
      summary +:+ "You have no events scheduled for today." +:+ Js.nl +:+ Js.nl in
  let summary :=
    if bool_decide (summaryLength settings ≠ concise) && (0 <? length tomorrowEvents)%nat then
      let summary :=
        summary +:+ "For tomorrow, you have " +:+ Js.ofNat (length tomorrowEvents) +:+
        " event" +:+ plural (length tomorrowEvents) +:+ " scheduled." +:+ Js.nl +:+ Js.nl in
      if bool_decide (summaryLength settings ≠ medium) then
        summary +:+ Js.concat (imap (narrateTomorrowEvent env) tomorrowEvents) +:+ Js.nl
      else summary
    else summary in
  let conflicts := findScheduleConflicts sortedEvents in
  let summary :=
    if (0 <? length conflicts)%nat then
      summary +:+ "Attention: I found the following schedule conflicts:" +:+ Js.nl +:+
      Js.concat (imap (narrateConflict env) conflicts) +:+ Js.nl
    else summary in
  let summary :=
    if bool_decide (summaryLength settings ≠ concise) then
      let highPriorityEvents :=
        List.filter (fun event => bool_decide (Event.importance event = "high")) sortedEvents in
      if (0 <? length highPriorityEvents)%nat then
        summary +:+ "Top priorities for today:" +:+ Js.nl +:+
        Js.concat (imap (narratePriority env)
                        (List.filter (fun event => Event.start event <? tomorrow)
                                     highPriorityEvents)) +:+ Js.nl
      else summary
    else summary in
  summary +:+ calendarOutro.

(** The two shapes of [options] the dispatcher builds; [type] is the tag. *)
Inductive SummaryOptions : Type :=
| EmailsOptions (data : list Email.t) (settings : Settings)
| CalendarOptions (data : list Event.t) (settings : Settings).

Definition summarizeWithAI (env : Env) (options : SummaryOptions) : string :=
  match options with
  | EmailsOptions data settings => generateEmailSummary env data settings
  | CalendarOptions data settings => generateCalendarSummary env data settings
  end.

(** ** Promises, exceptions and the console *)

Record JsError : Type := { errorName : string; errorMessage : string }.

Definition TypeError (msg : string) : JsError :=
  {| errorName := "TypeError"; errorMessage := msg |}.

Inductive Completion (A : Type) : Type :=
| Normal (a : A)
| Throw (e : JsError).
Global Arguments Normal {A} a.
Global Arguments Throw {A} e.

(** One call of [console.error(label, error)]. *)
Record ConsoleEntry : Type := { label : string; logged : JsError }.

(** An [async] computation: it may write to the console and settles as
    fulfilled ([Normal]) or rejected ([Throw]). *)
Definition Async (A : Type) : Type :=
  list ConsoleEntry → list ConsoleEntry * Completion A.

Definition resolve {A : Type} (a : A) : Async A := fun c => (c, Normal a).
Definition reject {A : Type} (e : JsError) : Async A := fun c => (c, Throw e).

(** [const x = await m; k x] *)
Definition await {A B : Type} (m : Async A) (k : A → Async B) : Async B :=
  fun c =>
    match m c with
    | (c', Normal a) => k a c'
    | (c', Throw e) => (c', Throw e)
    end.

(** [try { m } catch (error) { handler error }] *)
Definition tryCatch {A : Type} (m : Async A) (handler : JsError → Async A) : Async A :=
  fun c =>
    match m c with
    | (c', Normal a) => (c', Normal a)
    | (c', Throw e) => handler e c'
    end.

Definition consoleError (lbl : string) (e : JsError) : Async unit :=
  fun c => (c ++ [ {| label := lbl; logged := e |} ], Normal tt).

Definition liftCompletion {A : Type} (r : Completion A) : Async A :=
  fun c => (c, r).

Global Instance Async_ret : MRet Async := @resolve.
Global Instance Async_bind : MBind Async := fun A B k m => await m k.

(** ** Command dispatcher ([voiceProcessor.js]) *)

(** The imported services [fetchEmails] and [fetchCalendarEvents]: any
    implementation, each call settling as the service decides. *)
Record Services : Type := {
  fetchEmails : Settings → Async (list Email.t);
  fetchCalendarEvents : Settings → Async (list Event.t)
}.

Record Response : Type := { message : string }.

(** Property reads on [payload].  A command without payload has
    [payload === undefined], on which a property read throws; a property
    the payload does not have reads as [undefined] ([None]). *)
Module Get.
Definition noPayload {A : Type} (prop : string) : Completion A :=
  Throw (TypeError ("Cannot read properties of undefined (reading '" +:+ prop +:+ "')")).

Definition message (p : Payload) : Completion (option string) :=
  match p with
  | NoPayload => noPayload "message"
  | MessagePayload m => Normal (Some m)
  | _ => Normal None
  end.

Definition time (p : Payload) : Completion (option string) :=
  match p with
  | NoPayload => noPayload "time"
  | TimePayload t => Normal t
  | _ => Normal None
  end.

Definition isImportant (p : Payload) : Completion (option bool) :=
  match p with
  | NoPayload => noPayload "isImportant"
  | ImportantPayload b => Normal (Some b)
  | _ => Normal None
  end.

Definition response (p : Payload) : Completion (option string) :=
  match p with
  | NoPayload => noPayload "response"
  | ResponsePayload r => Normal (Some r)
  | _ => Normal None
  end.

Definition id (p : Payload) : Completion (option string) :=
  match p with
  | NoPayload => noPayload "id"
  | IdPayload i => Normal (Some i)
  | _ => Normal None
  end.

(** [const { what, when, withWhom, where } = payload] *)
Definition schedule (p : Payload)
  : Completion (option string * option string * option string * option string) :=
  match p with
  | NoPayload => noPayload "what"
  | SchedulePayload a b c d => Normal (Some a, Some b, Some c, Some d)
  | _ => Normal (None, None, None, None)
  end.
End Get.

(** A value inside a template literal, and its truthiness. *)
Definition interpolate (v : option string) : string := default "undefined" v.
Definition truthy (v : option string) : bool :=
  match v with
  | Some s => bool_decide (s ≠ "")
  | None => false
  end.

Definition handleReadEmails (env : Env) (svc : Services) (settings : Settings)
  : Async Response :=
  tryCatch
    (emails ← fetchEmails svc settings;
     summary ← resolve (summarizeWithAI env (EmailsOptions emails settings));
     mret {| message := summary |})
    (fun error =>
       _ ← consoleError "Error reading emails:" error;
       mret {| message :=
         "I'm sorry, I couldn't read your emails at this time. Please try again later." |}).

Definition handleReadAgenda (env : Env) (svc : Services) (settings : Settings)
  : Async Response :=
  tryCatch
    (events ← fetchCalendarEvents svc settings;
     summary ← resolve (summarizeWithAI env (CalendarOptions events settings));
     mret {| message := summary |})
    (fun error =>
       _ ← consoleError "Error reading agenda:" error;
       mret {| message :=
         "I'm sorry, I couldn't read your agenda at this time. Please try again later." |}).

Definition handleRespond (payload : Payload) (settings : Settings) : Async Response :=
  msg ← liftCompletion (Get.message payload);
  mret {| message :=
    "I've drafted your response: " +:+ Js.quoted (interpolate msg) +:+
    ". Would you like me to send it now?" |}.

Definition handleRespondLater (payload : Payload) (settings : Settings) : Async Response :=
  t ← liftCompletion (Get.time payload);
  let time :=
    if truthy t then interpolate t
    else "in " +:+ Js.ofZ (reminderDefaultTime settings) +:+ " minutes" in
  mret {| message := "I'll remind you to respond to this " +:+ time +:+ "." |}.

Definition handleSetImportant (payload : Payload) (settings : Settings) : Async Response :=
  b ← liftCompletion (Get.isImportant payload);
  let status := if default false b then "important" else "not important" in
  mret {| message := "I've marked this as " +:+ status +:+ "." |}.

(** The own properties of the object [responseMap]. *)
Definition responseMap : gmap string string :=
  list_to_map [
    ("accept", "I've accepted the meeting invitation.");
    ("decline", "I've declined the meeting invitation.");
    ("maybe", "I've tentatively accepted the meeting invitation.");
    ("reschedule", "I'll look for alternative times for this meeting.") ].

Definition calendarFallback : string := "I've processed your calendar response.".

Definition handleCalendarResponse (payload : Payload) (settings : Settings)
  : Async Response :=
  r ← liftCompletion (Get.response payload);
  mret {| message := default calendarFallback (responseMap !! interpolate r) |}.

Definition handleSchedule (payload : Payload) (settings : Settings) : Async Response :=
  '(what, when, withWhom, where_) ← liftCompletion (Get.schedule payload);
  let message := "I'm scheduling " in
  let message :=
    if truthy what then message +:+ Js.quoted (interpolate what) +:+ " " else message in
  let message :=
    if truthy when then message +:+ "for " +:+ interpolate when +:+ " " else message in
  let message :=
    if truthy withWhom then message +:+ "with " +:+ interpolate withWhom +:+ " " else message in
  let message :=
    if truthy where_ then message +:+ "at " +:+ interpolate where_ +:+ " " else message in
  let message := message +:+ ". Is that correct?" in
  mret {| message := message |}.

Definition handleReprioritize (payload : Payload) (settings : Settings) : Async Response :=
  i ← liftCompletion (Get.id payload);
  mret {| message := "I've reprioritized item " +:+ interpolate i +:+ "." |}.

Definition processCommand (env : Env) (svc : Services) (command : string)
    (settings : Settings) : Async Response :=
  let parsedCommand := parseCommand command in
  match type parsedCommand with
  | READ_EMAILS => handleReadEmails env svc settings
  | READ_AGENDA => handleReadAgenda env svc settings
  | IGNORE => mret {| message := "I'll ignore that item." |}
  | RESPOND => handleRespond (payload parsedCommand) settings
  | RESPOND_LATER => handleRespondLater (payload parsedCommand) settings
  | SET_IMPORTANT => handleSetImportant (payload parsedCommand) settings
  | CALENDAR_RESPONSE => handleCalendarResponse (payload parsedCommand) settings
  | SCHEDULE => handleSchedule (payload parsedCommand) settings
  | REPRIORITIZE => handleReprioritize (payload parsedCommand) settings
  | UNKNOWN =>
      mret {| message := "I'm sorry, I didn't understand that command. Please try again." |}
  end.

(** ** Specification-side definitions

    The notions the properties below are stated with.  None of them is used
    by the embedding above. *)

Module Spec.

(** The fallback chain as the specification words it: "decline", then
    "maybe", then the reschedule phrase, else "accept". *)
Definition responseByFirstMatch (command : string) : string :=
  if Js.includes command "decline" then "decline"
  else if Js.includes command "maybe" then "maybe"
  else if Js.includes command "find me a new time" then "reschedule"
  else "accept".

(** The chain read in the opposite direction: the last test that
    succeeds decides. *)
Definition responseByLastMatch (command : string) : string :=
  if Js.includes command "find me a new time" then "reschedule"
  else if Js.includes command "maybe" then "maybe"
  else if Js.includes command "decline" then "decline"
  else "accept".

Definition legalResponses : list string := ["accept"; "decline"; "maybe"; "reschedule"].

(** Intervals: the overlap test on two events. *)
Definition overlaps (a b : Event.t) : Prop :=
  Event.start a < Event.end_ b ∧ Event.start b < Event.end_ a.

(** The half-open intervals share an instant. *)
Definition intersects (a b : Event.t) : Prop :=
  ∃ t : Z, (Event.start a <= t < Event.end_ a) ∧ (Event.start b <= t < Event.end_ b).

(** Index pairs in outer/inner traversal order. *)
Definition pairBefore (p q : nat * nat) : Prop :=
  (p.1 < q.1)%nat ∨ (p.1 = q.1 ∧ (p.2 < q.2)%nat).

(** [c] is the conflict record of the pair of positions [p]. *)
Definition conflictAt (events : list Event.t) (p : nat * nat) (c : Conflict.t) : Prop :=
  events !! p.1 = Some (Conflict.event1 c) ∧
  events !! p.2 = Some (Conflict.event2 c) ∧
  Conflict.overlapStart c =
    Z.max (Event.start (Conflict.event1 c)) (Event.start (Conflict.event2 c)) ∧
  Conflict.overlapEnd c =
    Z.min (Event.end_ (Conflict.event1 c)) (Event.end_ (Conflict.event2 c)).

(** All pairs of positions [i < j < n], first position ascending, then
    second position ascending. *)
Definition allPairs (n : nat) : list (nat * nat) :=
  flat_map (fun i => map (pair i) (seq (i + 1) (n - (i + 1)))) (seq 0 n).

(** The overlap test at a pair of positions. *)
Definition overlapping (events : list Event.t) (p : nat * nat) : bool :=
  match events !! p.1, events !! p.2 with
  | Some a, Some b =>
      bool_decide (Event.start a < Event.end_ b) && bool_decide (Event.start b < Event.end_ a)
  | _, _ => false
  end.

(** The interval [start, end) of the event holds an instant. *)
Definition positiveLength (a : Event.t) : Prop := Event.start a < Event.end_ a.

(** No two of the half-open intervals share an instant. *)
Definition pairwiseDisjoint (events : list Event.t) : Prop :=
  ∀ i j a b, (i < j)%nat → events !! i = Some a → events !! j = Some b → ¬ intersects a b.

(** A comparator in the sense of [Array.prototype.sort]: consistent. *)
Record Consistent {A : Type} (cmp : A → A → Z) : Prop := {
  cmp_refl : ∀ a, cmp a a = 0;
  cmp_antisym : ∀ a b, cmp a b < 0 ↔ 0 < cmp b a;
  cmp_trans : ∀ a b c, cmp a b <= 0 → cmp b c <= 0 → cmp a c <= 0
}.

(** [a] may stand before [b]. *)
Definition notAfter {A : Type} (cmp : A → A → Z) (a b : A) : Prop := cmp a b <= 0.

(** The elements of [l] the comparator does not tell from [x]. *)
Definition tiedWith {A : Type} (cmp : A → A → Z) (x : A) (l : list A) : list A :=
  List.filter (fun y => cmp x y =? 0) l.

(** [out] is [l] sorted by [cmp], stably. *)
Definition StableSorted {A : Type} (cmp : A → A → Z) (l out : list A) : Prop :=
  Permutation l out ∧
  StronglySorted (notAfter cmp) out ∧
  ∀ x, tiedWith cmp x out = tiedWith cmp x l.

Section Rank.
Context {A : Type} `{Prioritizable A}.

(** The first key: the item has a sender, and the sender's email address
    is one of [settings.priorityContacts]. *)
Definition fromPriorityContact (settings : Settings) (a : A) : Prop :=
  ∃ c : Contact.t, itemFrom a = Some c ∧ Contact.email c ∈ priorityContacts settings.

Global Instance fromPriorityContact_dec (settings : Settings) (a : A) :
  Decision (fromPriorityContact settings a).
Proof.
  unfold fromPriorityContact. destruct (itemFrom a) as [c|].
  - destruct (decide (Contact.email c ∈ priorityContacts settings)) as [Hin|Hout].
    + left. by exists c.
    + right. by intros (? & [= <-] & ?).
  - right. by intros (? & ? & _).
Defined.

(** The three keys of the ranker, in their order of evaluation. *)
Definition rankKeys (settings : Settings) (a : A) : bool * bool * Z :=
  (bool_decide (fromPriorityContact settings a), itemIsImportant a, itemTimestamp a).

(** [a] sorts strictly before [b]: priority contact first, then the
    importance flag, then the greater timestamp; a later key is
    consulted only when the earlier ones do not discriminate. *)
Definition rankedBefore (settings : Settings) (a b : A) : Prop :=
  let '(pa, ia, ta) := rankKeys settings a in
  let '(pb, ib, tb) := rankKeys settings b in
  (pa = true ∧ pb = false) ∨
  (pa = pb ∧ ((ia = true ∧ ib = false) ∨ (ia = ib ∧ tb < ta))).
End Rank.

(** Importance, then recency: the order of the email summary. *)
Definition importantRecentFirst (a b : Email.t) : Prop :=
  (Email.isImportant a = true ∧ Email.isImportant b = false) ∨
  (Email.isImportant a = Email.isImportant b ∧ Email.timestamp b <= Email.timestamp a).

(** The opening sentence with all three counts. *)
Definition openingWithAllCounts (total unread important : nat) : string :=
  "You have " +:+ Js.ofNat total +:+ " emails in your inbox, " +:+
  Js.ofNat unread +:+ " unread, with " +:+ Js.ofNat important +:+ " marked as important.".

Definition unreadCount (emails : list Email.t) : nat :=
  length (List.filter (fun e => negb (Email.isRead e)) emails).
Definition importantCount (emails : list Email.t) : nat :=
  length (List.filter Email.isImportant emails).

(** The number of emails to narrate, per verbosity, as specified. *)
Definition subsetSize (l : SummaryLength) (total : nat) : nat :=
  match l with
  | concise => 3%nat
  | medium => 5%nat
  | detailed => 7%nat
  | everything => total
  end.

(** Fetch, then rank, then summarize: the READ_EMAILS pipeline as
    specified. *)
Definition readEmailsPipeline (env : Env) (svc : Services) (settings : Settings)
  : Async Response :=
  emails ← fetchEmails svc settings;
  mret {| message := generateEmailSummary env (prioritizeItems emails settings) settings |}.

End Spec.

(** ** Sample data *)

Module Sample.

Definition hour : Z := Date.msPerHour.
Definition minute : Z := Date.msPerMinute.
(** 2024-05-10T00:00:00Z *)
Definition day0 : Z := 19853 * Date.msPerDay.

Definition morning : Env := {| now := day0 + 8 * hour; tzOffset := 0 |}.
Definition evening : Env := {| now := day0 + 20 * hour; tzOffset := 0 |}.
Definition nextMorning : Env := {| now := day0 + 32 * hour; tzOffset := 0 |}.

Definition settingsWith (l : SummaryLength) : Settings :=
  {| summaryLength := l; priorityContacts := ["sarah.j@example.com"];
     reminderDefaultTime := 60 |}.

Definition john : Contact.t :=
  {| Contact.name := "John Smith"; Contact.email := "john.smith@example.com" |}.
Definition sarah : Contact.t :=
  {| Contact.name := "Sarah Johnson"; Contact.email := "sarah.j@example.com" |}.

Definition mail (id : string) (from : Contact.t) (subject : string) (timestamp : Z)
    (isRead isImportant : bool) : Email.t :=
  {| Email.id := id; Email.from := from; Email.subject := subject;
     Email.body := "Hi, a quick update."; Email.timestamp := timestamp;
     Email.isRead := isRead; Email.isImportant := isImportant;
     Email.hasAttachments := false |}.

Definition older : Email.t := mail "email-1" john "Project Status Update" (day0 + 4 * hour) true false.
Definition newer : Email.t := mail "email-3" sarah "Dinner plans" (day0 + 7 * hour) true false.
Definition unreadPlain : Email.t := mail "email-5" john "Notes" (day0 + 5 * hour) false false.

(** Five emails, two unread, one important. *)
Definition inbox : list Email.t :=
  [ mail "email-1" john "Project Status Update" (day0 + 6 * hour) false true;
    mail "email-2" john "New Brand Guidelines" (day0 + 4 * hour) true false;
    mail "email-3" sarah "Dinner plans" (day0 + 7 * hour) false false;
    mail "email-4" john "Meeting notes" (day0 - 16 * hour) true false;
    mail "email-5" sarah "Invoice" (day0 - 20 * hour) true false ].

Definition meeting (id title : string) (start end_ : Z) : Event.t :=
  {| Event.id := id; Event.title := title; Event.start := start; Event.end_ := end_;
     Event.location := ""; Event.attendees := []; Event.description := "";
     Event.responseStatus := "accepted"; Event.importance := "medium" |}.

Definition eventA : Event.t := meeting "event-A" "A" (day0 + 9 * hour) (day0 + 10 * hour).
Definition eventB : Event.t :=
  meeting "event-B" "B" (day0 + 9 * hour + 30 * minute) (day0 + 10 * hour + 30 * minute).
Definition eventC : Event.t := meeting "event-C" "C" (day0 + 11 * hour) (day0 + 12 * hour).
(** A reminder at 9:30 that takes no time: its interval is empty. *)
Definition instant : Event.t :=
  meeting "event-I" "I" (day0 + 9 * hour + 30 * minute) (day0 + 9 * hour + 30 * minute).

Definition failure : JsError :=
  {| errorName := "Error"; errorMessage := "Network Error" |}.

(** Services that answer with fixed data, and services that fail. *)
Definition serving (emails : list Email.t) (events : list Event.t) : Services :=
  {| fetchEmails := fun _ => resolve emails;
     fetchCalendarEvents := fun _ => resolve events |}.
Definition failing : Services :=
  {| fetchEmails := fun _ => reject failure;
     fetchCalendarEvents := fun _ => reject failure |}.

End Sample.

(** ** The caller of the dispatcher: [handleCommand] ([App.js]) *)

Module App.

(** What [handleCommand] does to the page: the state setters it calls and
    the text it hands to [speak], in order.  The setters and [speak] are
    taken to complete normally. *)
Inductive UiAction : Type :=
| SetIsLoading (loading : bool)
| SetResponse (text : string)
| Speak (text : string).

(** [s.replace(r, '')] for a regex without flag [g]: the leftmost match
    is cut out; without a match [s] is returned. *)
Fixpoint removeFirstMatch (r : Regex.regex) (s : string) : string :=
  match Regex.run r s None (fun rest _ => Some (Some rest)) with
  | Some (Some rest) => rest
  | _ =>
      match s with
      | EmptyString => EmptyString
      | String c s' => String c (removeFirstMatch r s')
      end
  end.

(** The pattern "/hey jarvis/i" *)
Definition wakePhrase : Regex.regex := Regex.lit "hey jarvis".

(** [command.replace(/hey jarvis/i, '').trim()] *)
Definition cleanCommand (command : string) : string :=
  Js.trim (removeFirstMatch wakePhrase command).

Definition errorMessage : string :=
  "Sorry, I encountered an error processing your request.".

Definition handleCommand (env : Env) (svc : Services) (settings : Settings)
    (command : string) (console : list ConsoleEntry)
  : list ConsoleEntry * list UiAction :=
  let started := [SetIsLoading true] in
  let finally := [SetIsLoading false] in
  let cleanCommand := cleanCommand command in
  match processCommand env svc cleanCommand settings console with
  | (console', Normal result) =>
      (console', started ++ [SetResponse (message result); Speak (message result)] ++ finally)
  | (console', Throw error) =>
      (console' ++ [ {| label := "Error processing command:"; logged := error |} ],
       started ++ [SetResponse errorMessage; Speak errorMessage] ++ finally)
  end.

(** The test of [toggleListening] before it calls [handleCommand]:
    [transcript && transcript.toLowerCase().includes('hey jarvis')]. *)
Definition heardWakePhrase (transcript : string) : bool :=
  bool_decide (transcript ≠ "") && Js.includes (Js.toLowerCase transcript) "hey jarvis".

End App.

(** ** Priority contacts in the settings panel ([SettingsPanel.js]) *)

Module SettingsPanel.

(** The [settings] prop and the text field [newContact]. *)
Record State : Type := { settings : Settings; newContact : string }.

(** [handleChange('priorityContacts', value)]: the settings handed to
    [onSettingsChange], which stores them. *)
Definition handleChange (settings : Settings) (value : list string) : Settings :=
  {| summaryLength := summaryLength settings;
     priorityContacts := value;
     reminderDefaultTime := reminderDefaultTime settings |}.

Definition addPriorityContact (st : State) : State :=
  if bool_decide (newContact st ≠ "") &&
     negb (bool_decide (newContact st ∈ priorityContacts (settings st)))
  then {| settings := handleChange (settings st)
                        (priorityContacts (settings st) ++ [newContact st]);
          newContact := "" |}
  else st.

Definition removePriorityContact (st : State) (contact : string) : State :=
  {| settings := handleChange (settings st)
                   (List.filter (fun c => bool_decide (c ≠ contact))
                                (priorityContacts (settings st)));
     newContact := newContact st |}.

End SettingsPanel.

(** ** Chunks for the speech synthesizer ([speechService.js]) *)

Module Speech.

Definition consPiece (c : ascii) (pieces : list string) : list string :=
  match pieces with
  | [] => [String c EmptyString]
  | p :: ps => String c p :: ps
  end.

(** [s.split(r)] for [r] a lookbehind on one of the marks followed by
    white space, one or more: the string is cut at each run of white
    space that follows a mark, and the run is dropped.  [afterMark]: the
    previous code unit is a mark; [skipping]: inside such a run.  The head
    of the result is the piece under construction; a run that reaches the
    end of the string leaves an empty last piece. *)
Fixpoint splitAfter (isMark : ascii → bool) (afterMark skipping : bool) (s : string)
  : list string :=
  match s with
  | EmptyString => [EmptyString]
  | String c s' =>
      if skipping then
        if Js.isSpace c then splitAfter isMark false true s'
        else consPiece c (splitAfter isMark (isMark c) false s')
      else if afterMark && Js.isSpace c then
        EmptyString :: splitAfter isMark false true s'
      else consPiece c (splitAfter isMark (isMark c) false s')
  end.

Definition isSentenceEnd (c : ascii) : bool :=
  Ascii.eqb c "." || Ascii.eqb c "!" || Ascii.eqb c "?".
Definition isComma (c : ascii) : bool := Ascii.eqb c ",".

(** The split on a lookbehind for one of [.!?], then white space. *)
Definition splitSentences (text : string) : list string :=
  splitAfter isSentenceEnd false false text.
(** The split on a lookbehind for a comma, then white space. *)
Definition splitClauses (sentence : string) : list string :=
  splitAfter isComma false false sentence.

(** The two accumulators of [splitTextIntoChunks]. *)
Record Acc : Type := { chunks : list string; currentChunk : string }.

(** [currentChunk += (currentChunk ? ' ' : '') + piece] *)
Definition appendPiece (currentChunk piece : string) : string :=
  currentChunk +:+ ((if bool_decide (currentChunk ≠ "") then " " else "") +:+ piece).

(** [s.slice(n)] *)
Definition sliceFrom (n : nat) (s : string) : string :=
  String.substring n (String.length s - n) s.

(** The [while] loop that force-splits a clause; [fuel] bounds the number
    of turns, [None] when it runs out. *)
Fixpoint forceSplit (fuel maxLength : nat) (remainingClause : string)
    (chunks : list string) : option (list string) :=
  if (0 <? String.length remainingClause)%nat then
    match fuel with
    | O => None
    | S fuel' =>
        let chunkSize := Nat.min (String.length remainingClause) maxLength in
        forceSplit fuel' maxLength (sliceFrom chunkSize remainingClause)
                   (chunks ++ [Js.substring0 chunkSize remainingClause])
    end
  else Some chunks.

(** One turn of the loop over [clauseChunks]. *)
Definition clauseStep (fuel maxLength : nat) (acc : Acc) (clause : string) : option Acc :=
  if (String.length (currentChunk acc) + String.length clause <=? maxLength)%nat then
    Some {| chunks := chunks acc; currentChunk := appendPiece (currentChunk acc) clause |}
  else
    let chunks :=
      if bool_decide (currentChunk acc ≠ "") then chunks acc ++ [currentChunk acc]
      else chunks acc in
    if (maxLength <? String.length clause)%nat then
      chunks ← forceSplit fuel maxLength clause chunks;
      Some {| chunks := chunks; currentChunk := "" |}
    else Some {| chunks := chunks; currentChunk := clause |}.

Fixpoint clauseLoop (fuel maxLength : nat) (acc : Acc) (clauses : list string)
  : option Acc :=
  match clauses with
  | [] => Some acc
  | clause :: rest =>
      acc ← clauseStep fuel maxLength acc clause;
      clauseLoop fuel maxLength acc rest
  end.

(** One turn of the loop over [sentences]. *)
Definition sentenceStep (fuel maxLength : nat) (acc : Acc) (sentence : string)
  : option Acc :=
  if (maxLength <? String.length sentence)%nat then
    clauseLoop fuel maxLength acc (splitClauses sentence)
  else if (String.length (currentChunk acc) + String.length sentence <=? maxLength)%nat then
    Some {| chunks := chunks acc; currentChunk := appendPiece (currentChunk acc) sentence |}
  else
    Some {| chunks := chunks acc ++ [currentChunk acc]; currentChunk := sentence |}.

Fixpoint sentenceLoop (fuel maxLength : nat) (acc : Acc) (sentences : list string)
  : option Acc :=
  match sentences with
  | [] => Some acc
  | sentence :: rest =>
      acc ← sentenceStep fuel maxLength acc sentence;
      sentenceLoop fuel maxLength acc rest
  end.

Definition splitTextIntoChunksFuel (fuel : nat) (text : string) (maxLength : nat)
  : option (list string) :=
  if (String.length text <=? maxLength)%nat then Some [text]
  else
    acc ← sentenceLoop fuel maxLength {| chunks := []; currentChunk := "" |}
                       (splitSentences text);
    Some (if bool_decide (currentChunk acc ≠ "") then chunks acc ++ [currentChunk acc]
          else chunks acc).

(** [splitTextIntoChunks(text, maxLength)]; a force-split of a clause
    takes no more turns than the text has code units, unless it never
    ends. *)
Definition splitTextIntoChunks (text : string) (maxLength : nat) : option (list string) :=
  splitTextIntoChunksFuel (String.length text) text maxLength.

(** The code units of a text that are not white space. *)
Fixpoint ink (s : string) : list ascii :=
  match s with
  | EmptyString => []
  | String c s' => if Js.isSpace c then ink s' else c :: ink s'
  end.

End Speech.

(** ** Notions for the further properties *)

Module Laws.

(** The payload a command of each type carries. *)
Definition payloadFits (t : CommandType) (p : Payload) : Prop :=
  match t, p with
  | (READ_EMAILS | READ_AGENDA | IGNORE | UNKNOWN), NoPayload => True
  | RESPOND, MessagePayload _ => True
  | RESPOND_LATER, TimePayload _ => True
  | SET_IMPORTANT, ImportantPayload _ => True
  | CALENDAR_RESPONSE, ResponsePayload _ => True
  | SCHEDULE, SchedulePayload _ _ _ _ => True
  | REPRIORITIZE, IdPayload _ => True
  | _, _ => False
  end.

(** A string that does not begin with white space. *)
Definition startsClean (s : string) : Prop :=
  match s with
  | EmptyString => True
  | String c _ => Js.isSpace c = false
  end.

(** The two intents whose handlers call a service. *)
Definition reads (t : CommandType) : bool :=
  match t with
  | READ_EMAILS | READ_AGENDA => true
  | _ => false
  end.

(** The text of a duration of [h] hours and [r] minutes, [0 <= r < 60], as
    [calculateDuration] words it. *)
Definition durationText (h r : Z) : string :=
  if h =? 0 then Js.ofZ r +:+ " minutes"
  else if r =? 0 then Js.ofZ h +:+ " hour" +:+ (if h =? 1 then "" else "s")
  else Js.ofZ h +:+ " hour" +:+ (if h =? 1 then "" else "s") +:+ " and " +:+
       Js.ofZ r +:+ " minute" +:+ (if r =? 1 then "" else "s").

(** Milliseconds since the local midnight. *)
Definition timeOfDay (env : Env) (t : Z) : Z := Date.localTime env t mod Date.msPerDay.

(** The comparator of the sort inside [generateCalendarSummary]. *)
Definition byStart (a b : Event.t) : Z := Event.start a - Event.start b.

(** [event] starts within the local day of the clock. *)
Definition startsToday (env : Env) (event : Event.t) : bool :=
  let today := Date.startOfDay env (now env) in
  (today <=? Event.start event) && (Event.start event <? Date.addDays today 1).

(** The first sentence of the calendar summary for [n] events today. *)
Definition todaySentence (n : nat) : string :=
  if (0 <? n)%nat
  then "You have " +:+ Js.ofNat n +:+ " event" +:+ plural n +:+ " scheduled for today."
  else "You have no events scheduled for today.".

Definition conflictHeader : string :=
  "Attention: I found the following schedule conflicts:".

(** The list of priority contacts as the panel keeps it: no contact
    twice, and never the empty string. *)
Definition wellKept (contacts : list string) : Prop :=
  NoDup contacts ∧ "" ∉ contacts.

(** A chunk is not empty and exceeds [maxLength] by one code unit at
    most. *)
Definition chunkOk (maxLength : nat) (chunk : string) : Prop :=
  (1 <= String.length chunk <= maxLength + 1)%nat.

(** The code units, white space apart, of a list of chunks. *)
Definition inkOf (chunks : list string) : list ascii := flat_map Speech.ink chunks.

(** The accumulators hold well-formed chunks only. *)
Definition accOk (maxLength : nat) (acc : Speech.Acc) : Prop :=
  Forall (chunkOk maxLength) (Speech.chunks acc)
  ∧ (String.length (Speech.currentChunk acc) <= maxLength + 1)%nat.

(** What the accumulators hold so far, white space apart. *)
Definition accInk (acc : Speech.Acc) : list ascii :=
  inkOf (Speech.chunks acc) ++ Speech.ink (Speech.currentChunk acc).

End Laws.

(** * Properties *)

(** ** The intent parser *)

Section Parser.

(** Walks down the cascade of [parseCommand], one test at a time. *)
Ltac cascade :=
  unfold parseCommand; cbv zeta;
  match goal with
  | |- context [Js.trim (Js.toLowerCase ?u)] =>
      generalize (Js.trim (Js.toLowerCase u)); intros command
  end;
  repeat match goal with
         | |- context [if ?b then _ else _] =>
             let E := fresh "E" in destruct b eqn:E; cbn [type payload]
         end.

Lemma includes_here (pat s : string) : Js.includes (pat +:+ s) pat = true.
Proof.
  assert (Hp : String.prefix pat (pat +:+ s) = true).
  { induction pat as [|c pat IH]; simpl.
    - by destruct s.
    - destruct (ascii_dec c c); [exact IH | congruence]. }
  destruct pat; simpl in *; [by destruct s | by rewrite Hp].
Qed.

Lemma includes_app_r (p s pat : string) :
  Js.includes s pat = true → Js.includes (p +:+ s) pat = true.
Proof.
  intros Hs. induction p as [|c p IH]; [done|].
  change (String c p +:+ s) with (String c (p +:+ s)).
  simpl. rewrite IH. apply orb_true_r.
Qed.

Lemma includes_surrounded (p pat s : string) :
  Js.includes (p +:+ pat +:+ s) pat = true.
Proof. apply includes_app_r, includes_here. Qed.

Lemma toLowerCase_app (a b : string) :
  Js.toLowerCase (a +:+ b) = Js.toLowerCase a +:+ Js.toLowerCase b.
Proof. induction a as [|c a IH]; [done|]. simpl. by rewrite IH. Qed.

(** [trimStart] stops at the first code unit that is not white space. *)
Lemma trimStart_app (p : string) (c : ascii) (s : string) :
  Js.isSpace c = false →
  ∃ p', Js.trimStart (p +:+ String c s) = p' +:+ String c s.
Proof.
  intros Hc. induction p as [|x p IH].
  - exists ""%string. simpl. by rewrite Hc.
  - change (String x p +:+ String c s) with (String x (p +:+ String c s)).
    simpl. destruct (Js.isSpace x); [exact IH|].
    by exists (String x p).
Qed.

Lemma trimEnd_cons (c : ascii) (s : string) :
  Js.isSpace c = false → Js.trimEnd (String c s) = String c (Js.trimEnd s).
Proof. intros Hc. simpl. destruct (Js.trimEnd s); by rewrite ?Hc. Qed.

(** [trimEnd] leaves everything up to the last code unit that is not
    white space. *)
Lemma trimEnd_app (p : string) (c : ascii) (s : string) :
  Js.isSpace c = false →
  Js.trimEnd (p +:+ String c s) = p +:+ String c (Js.trimEnd s).
Proof.
  intros Hc. induction p as [|x p IH].
  - by apply trimEnd_cons.
  - change (String x p +:+ String c s) with (String x (p +:+ String c s)).
    change (String x p +:+ String c (Js.trimEnd s))
      with (String x (p +:+ String c (Js.trimEnd s))).
    simpl. rewrite IH. by destruct p.
Qed.

Lemma append_assoc (a b c : string) : (a +:+ b) +:+ c = a +:+ (b +:+ c).
Proof.
  induction a as [|x a IH]; [done|].
  change (String x ((a +:+ b) +:+ c) = String x (a +:+ (b +:+ c))).
  by rewrite IH.
Qed.

(** The cascade reaches the calendar branch only through its test, and
    the payload there is the response entity. *)
Lemma parseCommand_calendar (u : string) :
  type (parseCommand u) = CALENDAR_RESPONSE →
  payload (parseCommand u)
  = ResponsePayload (calendarResponse (Js.trim (Js.toLowerCase u))).
Proof.
  cascade; intros Ht; try discriminate Ht. reflexivity.
Qed.

Lemma calendarResponse_last_match (c : string) :
  calendarResponse c = Spec.responseByLastMatch c.
Proof.
  unfold calendarResponse, Spec.responseByLastMatch. cbv zeta.
  by destruct (Js.includes c "find me a new time"),
             (Js.includes c "maybe"), (Js.includes c "decline").
Qed.

Lemma calendarResponse_legal (c : string) :
  calendarResponse c ∈ Spec.legalResponses.
Proof.
  rewrite calendarResponse_last_match.
  unfold Spec.responseByLastMatch, Spec.legalResponses.
  destruct (Js.includes c "find me a new time"),
           (Js.includes c "maybe"), (Js.includes c "decline");
    set_solver.
Qed.

(** C8.  Every utterance whose lower-cased, trimmed form contains
    "read me my emails" is parsed as READ_EMAILS, a command without
    payload, whatever else the utterance holds. *)
Theorem parse_read_me_my_emails (u : string) :
  Js.includes (Js.trim (Js.toLowerCase u)) "read me my emails" = true →
  parseCommand u = {| type := READ_EMAILS; payload := NoPayload |}.
Proof.
  intros Hin. unfold parseCommand. cbv zeta. by rewrite Hin.
Qed.

Lemma parse_read_me_my_emails_witness :
  Js.includes (Js.trim (Js.toLowerCase "  Jarvis, Read Me My Emails and ignore the schedule "))
              "read me my emails" = true
  ∧ parseCommand "  Jarvis, Read Me My Emails and ignore the schedule "
    = {| type := READ_EMAILS; payload := NoPayload |}.
Proof.
  split; [reflexivity|].
  apply (parse_read_me_my_emails "  Jarvis, Read Me My Emails and ignore the schedule ").
  reflexivity.
Defined.

(** The phrase wins wherever it stands: any text before and after it. *)
Lemma parse_read_emails_surrounded (before after : string) :
  type (parseCommand (before +:+ "read me my emails" +:+ after)) = READ_EMAILS.
Proof.
  unfold parseCommand. cbv zeta.
  rewrite !toLowerCase_app.
  change (Js.toLowerCase "read me my emails") with "read me my emails".
  destruct (trimStart_app (Js.toLowerCase before) "r" ("ead me my emails" +:+ Js.toLowerCase after))
    as [p' Hp']; [done|].
  unfold Js.trim.
  change ("read me my emails" +:+ Js.toLowerCase after)
    with (String "r" ("ead me my emails" +:+ Js.toLowerCase after)).
  rewrite Hp'.
  change (p' +:+ String "r" ("ead me my emails" +:+ Js.toLowerCase after))
    with (p' +:+ ("read me my email" +:+ String "s" (Js.toLowerCase after))).
  rewrite <- append_assoc, trimEnd_app by done.
  rewrite append_assoc.
  change ("read me my email" +:+ String "s" (Js.trimEnd (Js.toLowerCase after)))
    with ("read me my emails" +:+ Js.trimEnd (Js.toLowerCase after)).
  by rewrite includes_surrounded.
Qed.

(** C1 (as amended).  In a CALENDAR_RESPONSE command the response entity
    is decided by the last test of the chain that succeeds: the
    reschedule phrase, else "maybe", else "decline", else "accept". *)
Theorem calendar_response_last_match_wins (u : string) :
  type (parseCommand u) = CALENDAR_RESPONSE →
  payload (parseCommand u)
  = ResponsePayload (Spec.responseByLastMatch (Js.trim (Js.toLowerCase u))).
Proof.
  intros Ht. rewrite (parseCommand_calendar u Ht).
  by rewrite calendarResponse_last_match.
Qed.

Lemma calendar_response_last_match_wins_witness :
  type (parseCommand "Decline it, or maybe find me a new time") = CALENDAR_RESPONSE
  ∧ payload (parseCommand "Decline it, or maybe find me a new time")
    = ResponsePayload "reschedule".
Proof.
  split; [reflexivity|].
  apply (calendar_response_last_match_wins "Decline it, or maybe find me a new time").
  reflexivity.
Defined.

(** C1 (as stated) fails: with "decline" and "maybe" both present the
    entity is "maybe", where the stated precedence asks for "decline". *)
Lemma calendar_response_first_match_counterexample :
  type (parseCommand "decline, maybe") = CALENDAR_RESPONSE
  ∧ Spec.responseByFirstMatch (Js.trim (Js.toLowerCase "decline, maybe")) = "decline"
  ∧ payload (parseCommand "decline, maybe") = ResponsePayload "maybe"
  ∧ payload (parseCommand "decline, maybe")
    ≠ ResponsePayload (Spec.responseByFirstMatch (Js.trim (Js.toLowerCase "decline, maybe"))).
Proof. repeat split; [reflexivity..|discriminate]. Qed.

(** The cascade and the entity patterns on concrete utterances. *)
Example parse_first_rule_wins :
  type (parseCommand "ignore the schedule") = IGNORE
  ∧ type (parseCommand "please respond later, do not ignore") = IGNORE
  ∧ type (parseCommand "Read my calendar and read my emails") = READ_EMAILS
  ∧ type (parseCommand "what is the weather") = UNKNOWN.
Proof. repeat split; reflexivity. Qed.

Example parse_respond :
  parseCommand "  Respond: I will be there  "
  = {| type := RESPOND; payload := MessagePayload "i will be there" |}
  ∧ parseCommand "respond"
    = {| type := RESPOND; payload := MessagePayload "" |}.
Proof. split; reflexivity. Qed.

Example parse_respond_later :
  parseCommand "respond later at 5:30 pm please"
  = {| type := RESPOND_LATER; payload := TimePayload (Some "5:30 pm") |}
  ∧ parseCommand "Respond later"
    = {| type := RESPOND_LATER; payload := TimePayload None |}.
Proof. split; reflexivity. Qed.

Example parse_set_important :
  parseCommand "mark as not important"
  = {| type := SET_IMPORTANT; payload := ImportantPayload false |}
  ∧ parseCommand "Mark this important"
    = {| type := SET_IMPORTANT; payload := ImportantPayload true |}.
Proof. split; reflexivity. Qed.

Example parse_schedule :
  parseCommand "schedule lunch with Sam at noon"
  = {| type := SCHEDULE; payload := SchedulePayload "lunch" "noon" "sam" "noon" |}.
Proof. reflexivity. Qed.

Example parse_reprioritize :
  parseCommand "reprioritize email-4"
  = {| type := REPRIORITIZE; payload := IdPayload "email-4" |}.
Proof. reflexivity. Qed.

End Parser.

(** ** The command dispatcher *)

Section Dispatcher.
Context (env : Env) (svc : Services) (settings : Settings).

Lemma responseMap_legal (r : string) :
  r ∈ Spec.legalResponses →
  ∃ msg, responseMap !! r = Some msg ∧ msg ≠ calendarFallback.
Proof.
  unfold Spec.legalResponses. rewrite !elem_of_cons, elem_of_nil.
  intros [->|[->|[->|[->|[]]]]]; eexists; (split; [reflexivity|discriminate]).
Qed.

(** C10.  The response entity of a CALENDAR_RESPONSE command is one of
    accept, decline, maybe, reschedule; the handler's lookup in
    [responseMap] succeeds on it, the promise is fulfilled with the
    message found, and the fallback message is not produced. *)
Theorem calendar_response_closed (u : string) (console : list ConsoleEntry) :
  type (parseCommand u) = CALENDAR_RESPONSE →
  ∃ r msg,
    payload (parseCommand u) = ResponsePayload r
    ∧ r ∈ Spec.legalResponses
    ∧ responseMap !! r = Some msg
    ∧ processCommand env svc u settings console = (console, Normal {| message := msg |})
    ∧ msg ≠ calendarFallback.
Proof.
  intros Ht.
  pose proof (parseCommand_calendar u Ht) as Hp.
  set (r := calendarResponse (Js.trim (Js.toLowerCase u))) in *.
  destruct (responseMap_legal r (calendarResponse_legal _)) as (msg & Hmsg & Hne).
  exists r, msg. repeat split; [exact Hp|apply calendarResponse_legal|exact Hmsg| |exact Hne].
  unfold processCommand. cbv zeta. rewrite Ht, Hp.
  unfold handleCalendarResponse, liftCompletion, mbind, Async_bind, await, mret, Async_ret, resolve.
  cbn [Get.response interpolate default]. change (id r) with r.
  by rewrite Hmsg.
Qed.

(** C7.  When the calendar fetch is rejected during READ_AGENDA, the
    promise of [processCommand] is fulfilled with the fixed apology; the
    error goes to the console and nowhere else. *)
Theorem read_agenda_fetch_failure (u : string) (console console' : list ConsoleEntry)
    (error : JsError) :
  type (parseCommand u) = READ_AGENDA →
  fetchCalendarEvents svc settings console = (console', Throw error) →
  processCommand env svc u settings console
  = (console' ++ [ {| label := "Error reading agenda:"; logged := error |} ],
     Normal {| message :=
       "I'm sorry, I couldn't read your agenda at this time. Please try again later." |}).
Proof.
  intros Ht Hfetch. unfold processCommand. cbv zeta. rewrite Ht.
  unfold handleReadAgenda, tryCatch, mbind, Async_bind, await.
  by rewrite Hfetch.
Qed.

(** What the two reading handlers do when the fetch is fulfilled. *)
Lemma handleReadEmails_fulfilled (console console' : list ConsoleEntry)
    (emails : list Email.t) :
  fetchEmails svc settings console = (console', Normal emails) →
  handleReadEmails env svc settings console
  = (console', Normal {| message := generateEmailSummary env emails settings |}).
Proof.
  intros Hfetch. unfold handleReadEmails, tryCatch, mbind, Async_bind, await.
  by rewrite Hfetch.
Qed.

Lemma handleReadAgenda_fulfilled (console console' : list ConsoleEntry)
    (events : list Event.t) :
  fetchCalendarEvents svc settings console = (console', Normal events) →
  handleReadAgenda env svc settings console
  = (console', Normal {| message := generateCalendarSummary env events settings |}).
Proof.
  intros Hfetch. unfold handleReadAgenda, tryCatch, mbind, Async_bind, await.
  by rewrite Hfetch.
Qed.

(** C2 (as amended).  For READ_EMAILS and READ_AGENDA the message is the
    summary of the fetched items as fetched: summarize after fetch, with
    no ranking step in between. *)
Theorem read_handlers_summarize_fetched (u : string) (console console' : list ConsoleEntry) :
  (∀ emails,
     type (parseCommand u) = READ_EMAILS →
     fetchEmails svc settings console = (console', Normal emails) →
     processCommand env svc u settings console
     = (console', Normal {| message := generateEmailSummary env emails settings |}))
  ∧
  (∀ events,
     type (parseCommand u) = READ_AGENDA →
     fetchCalendarEvents svc settings console = (console', Normal events) →
     processCommand env svc u settings console
     = (console', Normal {| message := generateCalendarSummary env events settings |})).
Proof.
  split; intros items Ht Hfetch; unfold processCommand; cbv zeta; rewrite Ht.
  - by apply handleReadEmails_fulfilled.
  - by apply handleReadAgenda_fulfilled.
Qed.

End Dispatcher.

Lemma calendar_response_closed_witness :
  type (parseCommand "Maybe, I would rather decline") = CALENDAR_RESPONSE
  ∧ ∃ r msg,
      payload (parseCommand "Maybe, I would rather decline") = ResponsePayload r
      ∧ r ∈ Spec.legalResponses
      ∧ responseMap !! r = Some msg
      ∧ processCommand Sample.morning Sample.failing "Maybe, I would rather decline"
          (Sample.settingsWith medium) []
        = ([], Normal {| message := msg |})
      ∧ msg ≠ calendarFallback.
Proof.
  split; [reflexivity|].
  apply (calendar_response_closed Sample.morning Sample.failing (Sample.settingsWith medium)
           "Maybe, I would rather decline" []).
  reflexivity.
Defined.

Lemma read_agenda_fetch_failure_witness :
  type (parseCommand "Jarvis, read my agenda") = READ_AGENDA
  ∧ fetchCalendarEvents Sample.failing (Sample.settingsWith concise) []
    = ([], Throw Sample.failure)
  ∧ processCommand Sample.morning Sample.failing "Jarvis, read my agenda"
      (Sample.settingsWith concise) []
    = ([ {| label := "Error reading agenda:"; logged := Sample.failure |} ],
       Normal {| message :=
         "I'm sorry, I couldn't read your agenda at this time. Please try again later." |}).
Proof.
  split; [reflexivity|]. split; [reflexivity|].
  apply (read_agenda_fetch_failure Sample.morning Sample.failing (Sample.settingsWith concise)
           "Jarvis, read my agenda" [] [] Sample.failure); reflexivity.
Defined.

Lemma read_handlers_summarize_fetched_witness :
  type (parseCommand "read my emails") = READ_EMAILS
  ∧ fetchEmails (Sample.serving Sample.inbox []) (Sample.settingsWith medium) []
    = ([], Normal Sample.inbox)
  ∧ processCommand Sample.morning (Sample.serving Sample.inbox []) "read my emails"
      (Sample.settingsWith medium) []
    = ([], Normal {| message :=
         generateEmailSummary Sample.morning Sample.inbox (Sample.settingsWith medium) |}).
Proof.
  split; [reflexivity|]. split; [reflexivity|].
  apply (proj1 (read_handlers_summarize_fetched Sample.morning (Sample.serving Sample.inbox [])
                  (Sample.settingsWith medium) "read my emails" [] []));
    reflexivity.
Defined.

(** C2 (as stated) fails: under verbosity "everything" the two fetched
    emails are narrated as fetched, the older one first, while the
    pipeline with the ranking step narrates the priority contact first. *)
Lemma read_emails_rank_counterexample :
  let svc := Sample.serving [Sample.older; Sample.newer] [] in
  let settings := Sample.settingsWith everything in
  type (parseCommand "read me my emails") = READ_EMAILS
  ∧ prioritizeItems [Sample.older; Sample.newer] settings = [Sample.newer; Sample.older]
  ∧ processCommand Sample.morning svc "read me my emails" settings []
    ≠ Spec.readEmailsPipeline Sample.morning svc settings [].
Proof.
  cbv zeta. split; [reflexivity|]. split; [reflexivity|].
  vm_compute. discriminate.
Qed.

(** ** Sorting with a consistent comparator *)

Section SortFacts.
Context {A : Type} (cmp : A → A → Z) (Hcmp : Spec.Consistent cmp).

Local Abbreviation insert := (JsArray.insert cmp).
Local Abbreviation sort := (JsArray.sort cmp).
Local Abbreviation le := (Spec.notAfter cmp).
Local Abbreviation tied := (Spec.tiedWith cmp).

Lemma cmp_tie_sym (a b : A) : cmp a b = 0 → cmp b a = 0.
Proof.
  intros Hab. pose proof (Spec.cmp_antisym cmp Hcmp a b).
  pose proof (Spec.cmp_antisym cmp Hcmp b a). lia.
Qed.

Lemma cmp_after_before (a b : A) : 0 < cmp a b → cmp b a <= 0.
Proof. intros Hab. apply (Spec.cmp_antisym cmp Hcmp b a) in Hab. lia. Qed.

Lemma cmp_tie_trans (x a b : A) : cmp x a = 0 → cmp x b = 0 → cmp a b <= 0.
Proof.
  intros Ha Hb. apply (Spec.cmp_trans cmp Hcmp a x b); [|lia].
  rewrite (cmp_tie_sym x a Ha). lia.
Qed.

Lemma insert_perm (x : A) (l : list A) : Permutation (x :: l) (insert x l).
Proof.
  induction l as [|y l IH]; simpl; [done|].
  destruct (0 <? cmp x y); [|done].
  rewrite <- IH. apply perm_swap.
Qed.

Lemma sort_perm (l : list A) : Permutation l (sort l).
Proof.
  induction l as [|x l IH]; simpl; [done|].
  rewrite <- insert_perm. by constructor.
Qed.

Lemma insert_sorted (x : A) (l : list A) :
  StronglySorted le l → StronglySorted le (insert x l).
Proof.
  induction 1 as [|y l Hl IH Hy]; simpl.
  - repeat constructor.
  - destruct (0 <? cmp x y) eqn:E.
    + apply Z.ltb_lt in E. constructor; [exact IH|].
      rewrite <- insert_perm. constructor; [|exact Hy].
      by apply cmp_after_before.
    + apply Z.ltb_ge in E. constructor; [by constructor|].
      constructor; [exact E|].
      eapply Forall_impl; [exact Hy|].
      intros z Hz. by apply (Spec.cmp_trans cmp Hcmp x y z).
Qed.

Lemma sort_sorted (l : list A) : StronglySorted le (sort l).
Proof.
  induction l as [|x l IH]; simpl; [constructor|]. by apply insert_sorted.
Qed.

(** Insertion moves [x] only past elements that are not tied with it. *)
Lemma insert_tied (y x : A) (l : list A) : tied y (insert x l) = tied y (x :: l).
Proof.
  induction l as [|z l IH]; [done|]. simpl.
  destruct (0 <? cmp x z) eqn:E; [|done].
  apply Z.ltb_lt in E.
  unfold Spec.tiedWith in *. simpl in *. rewrite IH.
  destruct (cmp y x =? 0) eqn:Ex, (cmp y z =? 0) eqn:Ez; try done.
  apply Z.eqb_eq in Ex, Ez. pose proof (cmp_tie_trans y x z Ex Ez). lia.
Qed.

Lemma sort_tied (y : A) (l : list A) : tied y (sort l) = tied y l.
Proof.
  induction l as [|x l IH]; [done|].
  change (sort (x :: l)) with (insert x (sort l)).
  rewrite insert_tied. unfold Spec.tiedWith in *. simpl. by rewrite IH.
Qed.

(** The modelled sort is a stable sort. *)
Lemma sort_stable (l : list A) : Spec.StableSorted cmp l (sort l).
Proof.
  split; [apply sort_perm|]. split; [apply sort_sorted|].
  intros x. apply sort_tied.
Qed.

(** Two stable arrangements of the same elements are the same list. *)
Lemma stable_sorted_eq (l1 l2 : list A) :
  Permutation l1 l2 →
  StronglySorted le l1 → StronglySorted le l2 →
  (∀ x, tied x l1 = tied x l2) →
  l1 = l2.
Proof.
  revert l2. induction l1 as [|a t1 IH]; intros l2 Hperm Hs1 Hs2 Htied.
  - by apply Permutation_nil in Hperm.
  - destruct l2 as [|b t2]; [by apply Permutation_sym, Permutation_nil in Hperm|].
    apply StronglySorted_inv in Hs1 as [Hs1 Ha].
    apply StronglySorted_inv in Hs2 as [Hs2 Hb].
    assert (Hab : cmp a b <= 0).
    { assert (Hin : In b (a :: t1))
        by (eapply Permutation_in; [apply Permutation_sym, Hperm|by left]).
      destruct Hin as [->|Hin]; [rewrite (Spec.cmp_refl cmp Hcmp); lia|].
      rewrite Forall_forall in Ha. apply Ha. by apply list_elem_of_In. }
    assert (Hba : cmp b a <= 0).
    { assert (Hin : In a (b :: t2)) by (eapply Permutation_in; [apply Hperm|by left]).
      destruct Hin as [->|Hin]; [rewrite (Spec.cmp_refl cmp Hcmp); lia|].
      rewrite Forall_forall in Hb. apply Hb. by apply list_elem_of_In. }
    assert (Htie : cmp a b = 0).
    { pose proof (Spec.cmp_antisym cmp Hcmp a b). lia. }
    assert (a = b) as <-.
    { specialize (Htied a). unfold Spec.tiedWith in Htied. simpl in Htied.
      rewrite (Spec.cmp_refl cmp Hcmp), Htie in Htied. simpl in Htied. congruence. }
    f_equal. apply IH; [by eapply Permutation_cons_inv|done|done|].
    intros x. specialize (Htied x). unfold Spec.tiedWith in *. simpl in Htied.
    destruct (cmp x a =? 0); congruence.
Qed.

(** Hence every stable sort computes what [JsArray.sort] computes: for a
    consistent comparator the choice of algorithm does not show. *)
Lemma jsSort_unique (l out : list A) : Spec.StableSorted cmp l out → out = sort l.
Proof.
  intros (Hperm & Hsorted & Htied).
  apply stable_sorted_eq; [|done|apply sort_sorted|].
  - rewrite <- Hperm. apply sort_perm.
  - intros x. by rewrite Htied, sort_tied.
Qed.

End SortFacts.

Lemma StronglySorted_weaken {A : Type} (R S : A → A → Prop) (l : list A) :
  (∀ a b, R a b → S a b) → StronglySorted R l → StronglySorted S l.
Proof.
  intros HRS. induction 1 as [|a l Hl IH Ha]; constructor; [exact IH|].
  eapply Forall_impl; [exact Ha|]. intros b. apply HRS.
Qed.

Lemma StronglySorted_take {A : Type} (R : A → A → Prop) (n : nat) (l : list A) :
  StronglySorted R l → StronglySorted R (take n l).
Proof.
  intros Hl. rewrite <- (take_drop n l) in Hl.
  by apply StronglySorted_app_1_l in Hl.
Qed.

(** ** The priority ranker *)

Section Ranker.
Context {A : Type} `{Prioritizable A} (settings : Settings).

Local Abbreviation cmp := (prioritizeCompare settings).

(** The first test of the comparator holds exactly of the items whose
    sender's address is listed in [priorityContacts]. *)
Lemma isPriorityContact_listed (a : A) :
  isPriorityContact settings a = true ↔ Spec.fromPriorityContact settings a.
Proof.
  unfold isPriorityContact, Spec.fromPriorityContact.
  destruct (itemFrom a) as [c|].
  - rewrite bool_decide_eq_true. split.
    + intros Hin. by exists c.
    + by intros (? & [= <-] & ?).
  - split; [done|]. by intros (? & ? & _).
Qed.

Lemma isPriorityContact_key (a : A) :
  bool_decide (Spec.fromPriorityContact settings a) = isPriorityContact settings a.
Proof.
  destruct (isPriorityContact settings a) eqn:E.
  - by apply bool_decide_eq_true, isPriorityContact_listed.
  - apply bool_decide_eq_false. intros Hin.
    apply isPriorityContact_listed in Hin. congruence.
Qed.

Ltac by_keys a b :=
  unfold Spec.rankedBefore, Spec.rankKeys; rewrite ?isPriorityContact_key;
  unfold prioritizeCompare; cbv zeta;
  destruct (isPriorityContact settings a), (isPriorityContact settings b),
           (itemIsImportant a), (itemIsImportant b); simpl.

(** The comparator is negative exactly on the three-key order, each key
    consulted only when the earlier ones tie. *)
Lemma prioritizeCompare_before (a b : A) :
  cmp a b < 0 ↔ Spec.rankedBefore settings a b.
Proof. by_keys a b; intuition (try discriminate; try lia). Qed.

(** It is zero exactly on items equal on all three keys. *)
Lemma prioritizeCompare_tie (a b : A) :
  cmp a b = 0 ↔ Spec.rankKeys settings a = Spec.rankKeys settings b.
Proof.
  by_keys a b; (split; [intros Hc; try lia; f_equal; lia | intros [=]; lia]).
Qed.

Lemma prioritizeCompare_consistent : Spec.Consistent cmp.
Proof.
  split.
  - intros a. by apply prioritizeCompare_tie.
  - intros a b. by_keys a b; lia.
  - intros a b c. unfold prioritizeCompare; cbv zeta.
    destruct (isPriorityContact settings a), (isPriorityContact settings b),
             (isPriorityContact settings c),
             (itemIsImportant a), (itemIsImportant b), (itemIsImportant c);
      simpl; lia.
Qed.

(** C6.  [prioritizeItems] rearranges the items into the order of the
    three-key comparator (first the items whose sender's address is in
    [priorityContacts], then importance, then the greater timestamp, a
    later key deciding only when the earlier ones tie), and items equal
    on all three keys keep their input order. *)
Theorem prioritizeItems_stable_three_key_sort (items : list A) :
  (∀ a b, cmp a b < 0 ↔ Spec.rankedBefore settings a b)
  ∧ Permutation items (prioritizeItems items settings)
  ∧ StronglySorted (fun a b => ¬ Spec.rankedBefore settings b a)
                   (prioritizeItems items settings)
  ∧ ∀ x,
      List.filter (fun y => bool_decide (Spec.rankKeys settings y = Spec.rankKeys settings x))
                  (prioritizeItems items settings)
      = List.filter (fun y => bool_decide (Spec.rankKeys settings y = Spec.rankKeys settings x))
                    items.
Proof.
  pose proof prioritizeCompare_consistent as Hc.
  destruct (sort_stable cmp Hc items) as (Hperm & Hsorted & Htied).
  split; [apply prioritizeCompare_before|].
  split; [exact Hperm|]. split.
  - eapply StronglySorted_weaken; [|exact Hsorted].
    intros a b Hab Hba. apply prioritizeCompare_before in Hba.
    apply (Spec.cmp_antisym cmp Hc b a) in Hba. unfold Spec.notAfter in Hab. lia.
  - intros x. unfold prioritizeItems.
    assert (Hext : ∀ y,
      bool_decide (Spec.rankKeys settings y = Spec.rankKeys settings x) = (cmp x y =? 0)).
    { intros y. destruct (cmp x y =? 0) eqn:E.
      - apply Z.eqb_eq, prioritizeCompare_tie in E. by apply bool_decide_eq_true.
      - apply bool_decide_eq_false. intros Hk. apply Z.eqb_neq in E. apply E.
        by apply prioritizeCompare_tie. }
    rewrite !(List.filter_ext _ _ Hext). apply Htied.
Qed.

End Ranker.

(** ** The email summary *)

Section EmailSummary.
Context (env : Env).

Lemma emailCompare_notAfter (a b : Email.t) :
  emailCompare a b <= 0 ↔ Spec.importantRecentFirst a b.
Proof.
  unfold emailCompare, Spec.importantRecentFirst.
  destruct (Email.isImportant a), (Email.isImportant b); simpl;
    intuition (try discriminate; try lia).
Qed.

Lemma emailCompare_consistent : Spec.Consistent emailCompare.
Proof.
  split.
  - intros a. unfold emailCompare. destruct (Email.isImportant a); simpl; lia.
  - intros a b. unfold emailCompare.
    destruct (Email.isImportant a), (Email.isImportant b); simpl; lia.
  - intros a b c. unfold emailCompare.
    destruct (Email.isImportant a), (Email.isImportant b), (Email.isImportant c);
      simpl; lia.
Qed.

Lemma emailsToSummarize_limited (emails : list Email.t) (settings : Settings) (k : nat) :
  limits (summaryLength settings) = Some k →
  emailsToSummarize emails settings = take k (JsArray.sort emailCompare emails).
Proof.
  intros Hk. unfold emailsToSummarize. cbv zeta.
  destruct (summaryLength settings); try discriminate Hk;
    injection Hk as <-; reflexivity.
Qed.

(** C3 (as amended).  For "concise", "medium" and "detailed" the narrated
    emails are the first 3, 5 and 7 (or all, when there are fewer) of the
    list re-sorted stably by importance, then recency; for "everything"
    they are all the emails in their input order, not re-sorted. *)
Theorem narrated_emails (emails : list Email.t) (settings : Settings) :
  let sorted := JsArray.sort emailCompare emails in
  let narrated := emailsToSummarize emails settings in
  generateEmailSummary env emails settings
  = emailIntro emails +:+ Js.concat (imap (narrateEmail env settings) narrated) +:+ emailOutro
  ∧ Spec.StableSorted emailCompare emails sorted
  ∧ StronglySorted Spec.importantRecentFirst sorted
  ∧ match summaryLength settings with
    | everything => narrated = emails
    | l =>
        narrated = take (Spec.subsetSize l (length emails)) sorted
        ∧ length narrated = Nat.min (Spec.subsetSize l (length emails)) (length emails)
        ∧ StronglySorted Spec.importantRecentFirst narrated
    end.
Proof.
  cbv zeta. split; [reflexivity|].
  pose proof (sort_stable emailCompare emailCompare_consistent emails) as Hst.
  split; [exact Hst|].
  assert (Hsorted : StronglySorted Spec.importantRecentFirst (JsArray.sort emailCompare emails)).
  { destruct Hst as (_ & Hs & _). eapply StronglySorted_weaken; [|exact Hs].
    intros a b. apply emailCompare_notAfter. }
  split; [exact Hsorted|].
  assert (Hlen : length (JsArray.sort emailCompare emails) = length emails).
  { symmetry. apply Permutation_length, sort_perm. }
  destruct (summaryLength settings) eqn:El; cbn [Spec.subsetSize].
  1-3: erewrite emailsToSummarize_limited by (rewrite El; reflexivity).
  1-3: split; [reflexivity|split; [rewrite length_take; lia|by apply StronglySorted_take]].
  unfold emailsToSummarize. cbv zeta. rewrite El. reflexivity.
Qed.

(** C3 (as stated) fails: under "everything" two emails given older first
    are narrated older first, not in the (importance, recency) order; and
    under "concise" a single email gives a subset of one, not three. *)
Lemma narrated_emails_counterexample :
  emailsToSummarize [Sample.older; Sample.newer] (Sample.settingsWith everything)
  = [Sample.older; Sample.newer]
  ∧ take (Spec.subsetSize everything 2) (JsArray.sort emailCompare [Sample.older; Sample.newer])
    = [Sample.newer; Sample.older]
  ∧ emailsToSummarize [Sample.older; Sample.newer] (Sample.settingsWith everything)
    ≠ take (Spec.subsetSize everything 2)
           (JsArray.sort emailCompare [Sample.older; Sample.newer])
  ∧ length (emailsToSummarize [Sample.older] (Sample.settingsWith concise))
    ≠ Spec.subsetSize concise 1.
Proof. repeat split; [vm_compute; discriminate | vm_compute; lia]. Qed.

End EmailSummary.

(** ** Schedule conflicts *)

Section Conflicts.
Context (events : list Event.t).

(** What the loop body contributes for one pair of positions. *)
Local Abbreviation one := (fun p : nat * nat => checkPair events p.1 p.2 []).

Lemma checkPair_app (i j : nat) (acc : list Conflict.t) :
  checkPair events i j acc = acc ++ checkPair events i j [].
Proof.
  unfold checkPair. destruct (events !! i), (events !! j); rewrite ?app_nil_r; try done.
  cbv zeta. by destruct (_ && _); rewrite ?app_nil_r.
Qed.

Lemma inner_loop (i : nat) (js : list nat) (acc : list Conflict.t) :
  foldl (fun conflicts j => checkPair events i j conflicts) acc js
  = acc ++ flat_map (fun j => one (i, j)) js.
Proof.
  revert acc. induction js as [|j js IH]; intros acc; simpl; [by rewrite app_nil_r|].
  rewrite IH, checkPair_app. by rewrite <- app_assoc.
Qed.

Lemma flat_map_row (i : nat) (js : list nat) :
  flat_map one (map (pair i) js) = flat_map (fun j => one (i, j)) js.
Proof. induction js as [|j js IH]; simpl; [done|]. by rewrite IH. Qed.

Lemma outer_loop (row : nat → list nat) (ixs : list nat) (acc : list Conflict.t) :
  foldl (fun conflicts i =>
           foldl (fun conflicts j => checkPair events i j conflicts) conflicts (row i))
        acc ixs
  = acc ++ flat_map one (flat_map (fun i => map (pair i) (row i)) ixs).
Proof.
  revert acc. induction ixs as [|i ixs IH]; intros acc; simpl; [by rewrite app_nil_r|].
  rewrite IH, inner_loop, flat_map_app, flat_map_row. by rewrite <- app_assoc.
Qed.

(** The two loops visit [Spec.allPairs] in order. *)
Lemma findScheduleConflicts_flat_map :
  findScheduleConflicts events = flat_map one (Spec.allPairs (length events)).
Proof.
  unfold findScheduleConflicts, Spec.allPairs. cbv zeta.
  apply (outer_loop (fun i => seq (i + 1) (length events - (i + 1)))).
Qed.

Lemma one_conflictAt (ps : list (nat * nat)) :
  Forall2 (Spec.conflictAt events) (List.filter (Spec.overlapping events) ps) (flat_map one ps).
Proof.
  induction ps as [|[i j] ps IH]; simpl; [constructor|].
  unfold Spec.overlapping, checkPair. cbn [fst snd].
  destruct (events !! i) as [a|] eqn:Ei, (events !! j) as [b|] eqn:Ej; try exact IH.
  cbv zeta.
  destruct (Z.ltb_spec (Event.start a) (Event.end_ b)) as [H1|H1];
    [rewrite bool_decide_eq_true_2 by done | rewrite bool_decide_eq_false_2 by lia];
    simpl; [|exact IH].
  destruct (Z.ltb_spec (Event.start b) (Event.end_ a)) as [H2|H2];
    [rewrite bool_decide_eq_true_2 by done | rewrite bool_decide_eq_false_2 by lia];
    simpl; [|exact IH].
  constructor; [|exact IH].
  unfold Spec.conflictAt. cbn.
  repeat split; [done|done| |].
  - destruct (Z.gtb_spec (Event.start a) (Event.start b)); lia.
  - destruct (Z.ltb_spec (Event.end_ a) (Event.end_ b)); lia.
Qed.

Lemma overlapping_spec (i j : nat) :
  Spec.overlapping events (i, j) = true ↔
  ∃ a b, events !! i = Some a ∧ events !! j = Some b ∧ Spec.overlaps a b.
Proof.
  unfold Spec.overlapping, Spec.overlaps. cbn [fst snd].
  destruct (events !! i) as [a|], (events !! j) as [b|].
  - rewrite andb_true_iff, !bool_decide_eq_true. split.
    + intros [??]. by exists a, b.
    + by intros (? & ? & [= <-] & [= <-] & ?).
  - split; [done|]. by intros (? & ? & _ & ? & _).
  - split; [done|]. by intros (? & ? & ? & _).
  - split; [done|]. by intros (? & ? & ? & _).
Qed.

End Conflicts.

Lemma elem_of_allPairs (n i j : nat) :
  (i, j) ∈ Spec.allPairs n ↔ (i < j < n)%nat.
Proof.
  unfold Spec.allPairs. rewrite list_elem_of_In, in_flat_map. split.
  - intros (i' & Hi' & Hin). apply in_map_iff in Hin as (j' & [= -> ->] & Hj').
    apply in_seq in Hj'. lia.
  - intros Hij. exists i. split; [apply in_seq; lia|].
    apply in_map_iff. exists j. split; [done|]. apply in_seq. lia.
Qed.

Lemma row_sorted (i a k : nat) :
  StronglySorted Spec.pairBefore (map (pair i) (seq a k)).
Proof.
  revert a. induction k as [|k IH]; intros a; simpl; constructor; [apply IH|].
  apply Forall_forall. intros [i' j'] Hin.
  apply list_elem_of_In, in_map_iff in Hin as (j & [= <- <-] & Hj).
  apply in_seq in Hj. right. simpl. lia.
Qed.

Lemma rows_sorted (row : nat → list nat) (a k : nat) :
  (∀ i, StronglySorted Spec.pairBefore (map (pair i) (row i))) →
  StronglySorted Spec.pairBefore (flat_map (fun i => map (pair i) (row i)) (seq a k)).
Proof.
  intros Hrow. revert a. induction k as [|k IH]; intros a; simpl; [constructor|].
  apply StronglySorted_app_2; [|apply Hrow|apply IH].
  intros [i1 j1] [i2 j2] H1 H2.
  apply list_elem_of_In, in_map_iff in H1 as (? & [= <- <-] & _).
  apply list_elem_of_In, in_flat_map in H2 as (i & Hi & Hin).
  apply in_map_iff in Hin as (? & [= <- <-] & _).
  apply in_seq in Hi. left. simpl. lia.
Qed.

Lemma allPairs_sorted (n : nat) : StronglySorted Spec.pairBefore (Spec.allPairs n).
Proof. apply rows_sorted. intros i. apply row_sorted. Qed.

Lemma StronglySorted_filter_bool {A : Type} (R : A → A → Prop) (f : A → bool) (l : list A) :
  StronglySorted R l → StronglySorted R (List.filter f l).
Proof.
  induction 1 as [|a l Hl IH Ha]; simpl; [constructor|].
  destruct (f a); [|exact IH]. constructor; [exact IH|].
  apply Forall_forall. intros b Hb.
  apply list_elem_of_In, filter_In in Hb as [Hb _].
  rewrite Forall_forall in Ha. by apply Ha, list_elem_of_In.
Qed.

Lemma pairBefore_sorted_NoDup (ps : list (nat * nat)) :
  StronglySorted Spec.pairBefore ps → NoDup ps.
Proof.
  induction 1 as [|p ps Hps IH Hp]; constructor; [|exact IH].
  intros Hin. rewrite Forall_forall in Hp. specialize (Hp p Hin).
  unfold Spec.pairBefore in Hp. lia.
Qed.

Lemma overlaps_intersects (a b : Event.t) :
  Event.start a < Event.end_ a → Event.start b < Event.end_ b →
  Spec.overlaps a b ↔ Spec.intersects a b.
Proof.
  intros Ha Hb. unfold Spec.overlaps, Spec.intersects. split.
  - intros [H1 H2]. exists (Z.max (Event.start a) (Event.start b)). lia.
  - intros (t & ? & ?). lia.
Qed.

Lemma intersects_overlaps (a b : Event.t) : Spec.intersects a b → Spec.overlaps a b.
Proof. unfold Spec.overlaps. intros (t & ? & ?). lia. Qed.

(** C5 (as amended).  [findScheduleConflicts] reports exactly the pairs
    of positions [i < j] whose events pass the test [start_i < end_j] and
    [start_j < end_i], each once, in outer/inner traversal order, with the
    later start as [overlapStart] and the earlier end as [overlapEnd].
    When every event has [start < end], these are exactly the pairs whose
    half-open intervals [start, end) intersect, and events whose
    intervals are pairwise disjoint give the empty list. *)
Theorem findScheduleConflicts_pairs (events : list Event.t) :
  ∃ pairs : list (nat * nat),
    Forall2 (Spec.conflictAt events) pairs (findScheduleConflicts events)
    ∧ StronglySorted Spec.pairBefore pairs
    ∧ NoDup pairs
    ∧ (∀ i j, (i, j) ∈ pairs ↔
         (i < j)%nat ∧
         ∃ a b, events !! i = Some a ∧ events !! j = Some b ∧ Spec.overlaps a b)
    ∧ (Forall Spec.positiveLength events →
         (∀ i j, (i, j) ∈ pairs ↔
            (i < j)%nat ∧
            ∃ a b, events !! i = Some a ∧ events !! j = Some b ∧ Spec.intersects a b)
         ∧ (Spec.pairwiseDisjoint events → findScheduleConflicts events = [])).
Proof.
  set (pairs := List.filter (Spec.overlapping events) (Spec.allPairs (length events))).
  assert (Hmem : ∀ i j, (i, j) ∈ pairs ↔
            (i < j)%nat ∧
            ∃ a b, events !! i = Some a ∧ events !! j = Some b ∧ Spec.overlaps a b).
  { intros i j. unfold pairs.
    rewrite list_elem_of_In, filter_In, <- list_elem_of_In, elem_of_allPairs, overlapping_spec.
    split; [intros [[??] ?]; by split|].
    intros [Hij (a & b & Ha & Hb & Hov)]. split; [|by exists a, b].
    split; [done|]. by eapply lookup_lt_Some. }
  assert (Hconf : Forall2 (Spec.conflictAt events) pairs (findScheduleConflicts events)).
  { rewrite findScheduleConflicts_flat_map. apply one_conflictAt. }
  assert (Hsorted : StronglySorted Spec.pairBefore pairs)
    by apply StronglySorted_filter_bool, allPairs_sorted.
  exists pairs.
  split; [exact Hconf|]. split; [exact Hsorted|].
  split; [by apply pairBefore_sorted_NoDup|].
  split; [exact Hmem|].
  intros Hpos.
  assert (Hmem' : ∀ i j, (i, j) ∈ pairs ↔
            (i < j)%nat ∧
            ∃ a b, events !! i = Some a ∧ events !! j = Some b ∧ Spec.intersects a b).
  { intros i j. rewrite Hmem. split.
    - intros [Hij (a & b & Ha & Hb & Hov)]. split; [done|]. exists a, b.
      split; [done|]. split; [done|].
      apply overlaps_intersects; [..|done].
      + exact (Forall_lookup_1 _ _ _ _ Hpos Ha).
      + exact (Forall_lookup_1 _ _ _ _ Hpos Hb).
    - intros [Hij (a & b & Ha & Hb & Hint)]. split; [done|]. exists a, b.
      split; [done|]. split; [done|]. by apply intersects_overlaps. }
  split; [exact Hmem'|].
  intros Hdis. destruct pairs as [|[i j] ps] eqn:Eps.
  - by inversion Hconf.
  - exfalso. destruct (proj1 (Hmem' i j)) as (Hij & a & b & Ha & Hb & Hint); [left|].
    by apply (Hdis i j a b).
Qed.

Lemma findScheduleConflicts_pairs_witness :
  Forall Spec.positiveLength [Sample.eventA; Sample.eventC]
  ∧ Spec.pairwiseDisjoint [Sample.eventA; Sample.eventC]
  ∧ findScheduleConflicts [Sample.eventA; Sample.eventC] = [].
Proof.
  assert (Hpos : Forall Spec.positiveLength [Sample.eventA; Sample.eventC]).
  { constructor; [reflexivity|]. constructor; [reflexivity|constructor]. }
  assert (Hdis : Spec.pairwiseDisjoint [Sample.eventA; Sample.eventC]).
  { intros i j a b Hij Hi Hj (t & Ha & Hb).
    destruct i as [|[|i]], j as [|[|j]]; try lia; try discriminate.
    injection Hi as <-. injection Hj as <-.
    cbv [Sample.eventA Sample.eventC Sample.meeting Event.start Event.end_
         Sample.day0 Sample.hour Date.msPerDay Date.msPerHour] in Ha, Hb.
    lia. }
  split; [exact Hpos|]. split; [exact Hdis|].
  destruct (findScheduleConflicts_pairs [Sample.eventA; Sample.eventC])
    as (pairs & _ & _ & _ & _ & Hwell).
  exact (proj2 (Hwell Hpos) Hdis).
Defined.

(** An event that takes no time has an empty interval [start, end), which
    meets no other interval; set inside a meeting it still passes the test
    of the code and is reported as a conflict. *)
Lemma findScheduleConflicts_empty_interval_counterexample :
  ¬ Spec.intersects Sample.eventA Sample.instant
  ∧ Spec.pairwiseDisjoint [Sample.eventA; Sample.instant]
  ∧ map (fun c => (Event.title (Conflict.event1 c), Event.title (Conflict.event2 c)))
        (findScheduleConflicts [Sample.eventA; Sample.instant]) = [("A", "I")]
  ∧ findScheduleConflicts [Sample.eventA; Sample.instant] ≠ [].
Proof.
  assert (Hno : ¬ Spec.intersects Sample.eventA Sample.instant).
  { intros (t & _ & Hb).
    cbv [Sample.instant Sample.meeting Event.start Event.end_] in Hb. lia. }
  split; [exact Hno|]. split.
  - intros i j a b Hij Hi Hj.
    destruct i as [|[|i]], j as [|[|j]]; try lia; try discriminate.
    injection Hi as <-. injection Hj as <-. exact Hno.
  - split; [reflexivity|]. intros Hnil. vm_compute in Hnil. discriminate Hnil.
Qed.

(** The scenario of the specification: A 9:00-10:00 and B 9:30-10:30 give
    one conflict, from 9:30 to 10:00, whatever stands after them. *)
Example findScheduleConflicts_scenario :
  map (fun c => (Event.title (Conflict.event1 c), Event.title (Conflict.event2 c),
                 formatTime Sample.morning (Conflict.overlapStart c),
                 formatTime Sample.morning (Conflict.overlapEnd c)))
      (findScheduleConflicts [Sample.eventA; Sample.eventB; Sample.eventC])
  = [("A", "B", "9:30am", "10:00am")].
Proof. reflexivity. Qed.

(** ** The opening of the email summary *)

Section Opening.
Context (env : Env).

(** C9 (as amended).  The email summary opens with the total and the
    unread count, and with the important count only when it is not zero;
    the question and a blank line follow. *)
Theorem email_summary_opening (emails : list Email.t) (settings : Settings) :
  let total := length emails in
  let unread := Spec.unreadCount emails in
  let important := Spec.importantCount emails in
  ∃ rest,
    generateEmailSummary env emails settings
    = (if (0 <? important)%nat
       then Spec.openingWithAllCounts total unread important
       else "You have " +:+ Js.ofNat total +:+ " emails in your inbox, " +:+
            Js.ofNat unread +:+ " unread.")
      +:+ " Would you like to hear about them?" +:+ Js.nl +:+ Js.nl +:+ rest.
Proof.
  cbv zeta.
  exists (Js.concat (imap (narrateEmail env settings) (emailsToSummarize emails settings))
          +:+ emailOutro).
  unfold generateEmailSummary, emailIntro, Spec.openingWithAllCounts,
    Spec.unreadCount, Spec.importantCount. cbv zeta.
  destruct (0 <? _)%nat; rewrite !append_assoc; reflexivity.
Qed.

End Opening.

(** The scenario of the specification: five emails, two unread, one
    important. *)
Example email_summary_opening_scenario :
  String.prefix "You have 5 emails in your inbox, 2 unread, with 1 marked as important."
                (generateEmailSummary Sample.morning Sample.inbox (Sample.settingsWith medium))
  = true.
Proof. reflexivity. Qed.

(** C9 (as stated) fails: with no important email the opening stops after
    the unread count. *)
Lemma email_summary_opening_counterexample :
  Spec.importantCount [Sample.unreadPlain] = 0%nat
  ∧ String.prefix (Spec.openingWithAllCounts 1 1 0)
      (generateEmailSummary Sample.morning [Sample.unreadPlain] (Sample.settingsWith medium))
    = false
  ∧ String.prefix "You have 1 emails in your inbox, 1 unread. Would you like to hear about them?"
      (generateEmailSummary Sample.morning [Sample.unreadPlain] (Sample.settingsWith medium))
    = true
  ∧ Js.includes
      (generateEmailSummary Sample.morning [Sample.unreadPlain] (Sample.settingsWith medium))
      "marked as important"
    = false.
Proof. repeat split; reflexivity. Qed.

(** ** What the summaries depend on *)

Section Purity.
Context (env1 env2 : Env) (Htz : tzOffset env1 = tzOffset env2).

Lemma formatTime_tz (date : Z) : formatTime env1 date = formatTime env2 date.
Proof.
  unfold formatTime, Date.getHours, Date.getMinutes, Date.localTime. by rewrite Htz.
Qed.

Lemma narrateEmail_tz (settings : Settings) (index : nat) (email : Email.t) :
  narrateEmail env1 settings index email = narrateEmail env2 settings index email.
Proof. unfold narrateEmail. by rewrite formatTime_tz. Qed.

Lemma narrateTodayEvent_tz (settings : Settings) (index : nat) (event : Event.t) :
  narrateTodayEvent env1 settings index event = narrateTodayEvent env2 settings index event.
Proof. unfold narrateTodayEvent. by rewrite formatTime_tz. Qed.

Lemma narrateTomorrowEvent_tz (index : nat) (event : Event.t) :
  narrateTomorrowEvent env1 index event = narrateTomorrowEvent env2 index event.
Proof. unfold narrateTomorrowEvent. by rewrite formatTime_tz. Qed.

Lemma narrateConflict_tz (index : nat) (conflict : Conflict.t) :
  narrateConflict env1 index conflict = narrateConflict env2 index conflict.
Proof. unfold narrateConflict. by rewrite formatTime_tz. Qed.

Lemma narratePriority_tz (index : nat) (event : Event.t) :
  narratePriority env1 index event = narratePriority env2 index event.
Proof. unfold narratePriority. by rewrite formatTime_tz. Qed.

Lemma generateEmailSummary_tz (emails : list Email.t) (settings : Settings) :
  generateEmailSummary env1 emails settings = generateEmailSummary env2 emails settings.
Proof.
  unfold generateEmailSummary. f_equal. f_equal. f_equal.
  apply imap_ext. intros i x _. apply narrateEmail_tz.
Qed.

Lemma generateCalendarSummary_midnight (events : list Event.t) (settings : Settings) :
  Date.startOfDay env1 (now env1) = Date.startOfDay env2 (now env2) →
  generateCalendarSummary env1 events settings = generateCalendarSummary env2 events settings.
Proof.
  intros Hday. unfold generateCalendarSummary. cbv zeta. rewrite Hday.
  rewrite (imap_ext (narrateTodayEvent env1 settings) (narrateTodayEvent env2 settings))
    by (intros; apply narrateTodayEvent_tz).
  rewrite (imap_ext (narrateTomorrowEvent env1) (narrateTomorrowEvent env2))
    by (intros; apply narrateTomorrowEvent_tz).
  rewrite (imap_ext (narrateConflict env1) (narrateConflict env2))
    by (intros; apply narrateConflict_tz).
  rewrite (imap_ext (narratePriority env1) (narratePriority env2))
    by (intros; apply narratePriority_tz).
  reflexivity.
Qed.

End Purity.

(** C4 (as amended).  In one time zone, the email summary is a function
    of the emails and the preferences alone: the clock has no part in it.
    The calendar summary is a function of the events, the preferences and
    the local midnight that starts the current day: two moments of the
    same local day give the same report. *)
Theorem summaries_determined_by (env1 env2 : Env) (emails : list Email.t)
    (events : list Event.t) (settings : Settings) :
  tzOffset env1 = tzOffset env2 →
  generateEmailSummary env1 emails settings = generateEmailSummary env2 emails settings
  ∧ (Date.startOfDay env1 (now env1) = Date.startOfDay env2 (now env2) →
     generateCalendarSummary env1 events settings
     = generateCalendarSummary env2 events settings).
Proof.
  intros Htz. split.
  - by apply generateEmailSummary_tz.
  - by apply generateCalendarSummary_midnight.
Qed.

Lemma summaries_determined_by_witness :
  tzOffset Sample.morning = tzOffset Sample.evening
  ∧ Date.startOfDay Sample.morning (now Sample.morning)
    = Date.startOfDay Sample.evening (now Sample.evening)
  ∧ generateEmailSummary Sample.morning Sample.inbox (Sample.settingsWith detailed)
    = generateEmailSummary Sample.evening Sample.inbox (Sample.settingsWith detailed)
  ∧ generateCalendarSummary Sample.morning [Sample.eventA; Sample.eventB]
      (Sample.settingsWith detailed)
    = generateCalendarSummary Sample.evening [Sample.eventA; Sample.eventB]
        (Sample.settingsWith detailed).
Proof.
  split; [reflexivity|]. split; [reflexivity|].
  destruct (summaries_determined_by Sample.morning Sample.evening Sample.inbox
              [Sample.eventA; Sample.eventB] (Sample.settingsWith detailed) eq_refl)
    as [Hemail Hcal].
  split; [exact Hemail|]. apply Hcal. reflexivity.
Defined.

(** C4 (as stated) fails for the calendar summary: the same event and
    the same preferences, read on the day of the event and on the next
    day, give different reports. *)
Lemma calendar_summary_clock_counterexample :
  generateCalendarSummary Sample.morning [Sample.eventA] (Sample.settingsWith concise)
  ≠ generateCalendarSummary Sample.nextMorning [Sample.eventA] (Sample.settingsWith concise).
Proof. vm_compute. discriminate. Qed.

(** ** Time utilities and handlers on concrete inputs *)

Example formatTime_samples :
  formatTime Sample.morning (Sample.day0 + 5 * Sample.minute) = "12:05am"
  ∧ formatTime Sample.morning (Sample.day0 + 13 * Sample.hour) = "1:00pm"
  ∧ formatTime Sample.morning (Sample.day0 + 12 * Sample.hour + 30 * Sample.minute) = "12:30pm"
  ∧ formatTime {| now := 0; tzOffset := 2 * Sample.hour |} (Sample.day0 + 23 * Sample.hour)
    = "1:00am".
Proof. repeat split; reflexivity. Qed.

Example calculateDuration_samples :
  calculateDuration Sample.day0 Sample.day0 = "0 minutes"
  ∧ calculateDuration 0 (45 * Sample.minute) = "45 minutes"
  ∧ calculateDuration 0 Sample.hour = "1 hour"
  ∧ calculateDuration 0 (2 * Sample.hour + Sample.minute) = "2 hours and 1 minute"
  ∧ calculateDuration 0 (Sample.hour + 30 * Sample.minute) = "1 hour and 30 minutes".
Proof. repeat split; reflexivity. Qed.

Example processCommand_samples :
  processCommand Sample.morning Sample.failing "Respond later" (Sample.settingsWith medium) []
  = ([], Normal {| message := "I'll remind you to respond to this in 60 minutes." |})
  ∧ processCommand Sample.morning Sample.failing "mark as not important"
      (Sample.settingsWith medium) []
    = ([], Normal {| message := "I've marked this as not important." |})
  ∧ processCommand Sample.morning Sample.failing "reprioritize email-4"
      (Sample.settingsWith medium) []
    = ([], Normal {| message := "I've reprioritized item email-4." |})
  ∧ processCommand Sample.morning Sample.failing "tell me a joke" (Sample.settingsWith medium) []
    = ([], Normal {| message :=
         "I'm sorry, I didn't understand that command. Please try again." |}).
Proof. repeat split; reflexivity. Qed.

(** * Further properties *)

(** ** Normal form of an utterance *)

Lemma lowerChar_idem (c : ascii) : Js.lowerChar (Js.lowerChar c) = Js.lowerChar c.
Proof. destruct c as [[] [] [] [] [] [] [] []]; reflexivity. Qed.

Lemma isSpace_lowerChar (c : ascii) : Js.isSpace (Js.lowerChar c) = Js.isSpace c.
Proof. destruct c as [[] [] [] [] [] [] [] []]; reflexivity. Qed.

Lemma toLowerCase_idem (s : string) : Js.toLowerCase (Js.toLowerCase s) = Js.toLowerCase s.
Proof. induction s as [|c s IH]; simpl; [done|]. by rewrite lowerChar_idem, IH. Qed.

Lemma trimStart_toLowerCase (s : string) :
  Js.trimStart (Js.toLowerCase s) = Js.toLowerCase (Js.trimStart s).
Proof.
  induction s as [|c s IH]; simpl; [done|].
  rewrite isSpace_lowerChar. by destruct (Js.isSpace c).
Qed.

Lemma trimEnd_toLowerCase (s : string) :
  Js.trimEnd (Js.toLowerCase s) = Js.toLowerCase (Js.trimEnd s).
Proof.
  induction s as [|c s IH]; simpl; [done|].
  rewrite IH, isSpace_lowerChar.
  destruct (Js.trimEnd s); simpl; [by destruct (Js.isSpace c)|done].
Qed.

Lemma trim_toLowerCase (s : string) :
  Js.trim (Js.toLowerCase s) = Js.toLowerCase (Js.trim s).
Proof. unfold Js.trim. by rewrite trimStart_toLowerCase, trimEnd_toLowerCase. Qed.

Lemma trimStart_clean (s : string) : Laws.startsClean (Js.trimStart s).
Proof.
  induction s as [|c s IH]; simpl; [done|].
  destruct (Js.isSpace c) eqn:E; [exact IH|exact E].
Qed.

Lemma trimStart_fixed (s : string) : Laws.startsClean s → Js.trimStart s = s.
Proof. destruct s as [|c s]; simpl; [done|]. by intros ->. Qed.

Lemma trimEnd_clean (s : string) : Laws.startsClean s → Laws.startsClean (Js.trimEnd s).
Proof.
  destruct s as [|c s]; [done|]. intros Hc. simpl in Hc.
  by rewrite trimEnd_cons.
Qed.

Lemma trimEnd_idem (s : string) : Js.trimEnd (Js.trimEnd s) = Js.trimEnd s.
Proof.
  induction s as [|c s IH]; simpl; [done|].
  destruct (Js.trimEnd s) as [|d t] eqn:E.
  - destruct (Js.isSpace c) eqn:Ec; simpl; [done|by rewrite Ec].
  - change (Js.trimEnd (String c (String d t)))
      with (match Js.trimEnd (String d t) with
            | EmptyString => if Js.isSpace c then EmptyString else String c EmptyString
            | t' => String c t'
            end).
    by rewrite IH.
Qed.

Lemma trim_idem (s : string) : Js.trim (Js.trim s) = Js.trim s.
Proof.
  unfold Js.trim.
  rewrite (trimStart_fixed (Js.trimEnd (Js.trimStart s)))
    by apply trimEnd_clean, trimStart_clean.
  apply trimEnd_idem.
Qed.

(** X1.  The parser reads an utterance up to letter case and surrounding
    white space: lower-casing or trimming it beforehand changes neither
    the intent nor the entities. *)
Theorem parseCommand_case_and_space (u : string) :
  parseCommand (Js.toLowerCase u) = parseCommand u
  ∧ parseCommand (Js.trim u) = parseCommand u.
Proof.
  split; unfold parseCommand; cbv zeta.
  - by rewrite toLowerCase_idem.
  - by rewrite <- trim_toLowerCase, trim_idem.
Qed.

(** ** Shape of a parsed command, and what the dispatcher makes of it *)

(** Whatever the utterance, the payload of the parsed command is the one
    its type calls for: none for READ_EMAILS, READ_AGENDA, IGNORE and
    UNKNOWN, and the entity record of the intent otherwise. *)
Lemma parseCommand_payload_fits (u : string) :
  Laws.payloadFits (type (parseCommand u)) (payload (parseCommand u)).
Proof.
  unfold parseCommand; cbv zeta.
  generalize (Js.trim (Js.toLowerCase u)); intros command.
  repeat match goal with
         | |- context [if ?b then _ else _] => destruct b; cbn [type payload]
         end; exact I.
Qed.

Section Fulfilled.
Context (env : Env) (svc : Services) (settings : Settings).

Lemma handler_fulfilled (t : CommandType) (p : Payload) (console : list ConsoleEntry) :
  Laws.payloadFits t p →
  ∃ console' response,
    match t with
    | READ_EMAILS => handleReadEmails env svc settings
    | READ_AGENDA => handleReadAgenda env svc settings
    | IGNORE => mret {| message := "I'll ignore that item." |}
    | RESPOND => handleRespond p settings
    | RESPOND_LATER => handleRespondLater p settings
    | SET_IMPORTANT => handleSetImportant p settings
    | CALENDAR_RESPONSE => handleCalendarResponse p settings
    | SCHEDULE => handleSchedule p settings
    | REPRIORITIZE => handleReprioritize p settings
    | UNKNOWN =>
        mret {| message := "I'm sorry, I didn't understand that command. Please try again." |}
    end console = (console', Normal response).
Proof.
  destruct t, p; simpl; intros Hfit; try contradiction;
    try (unfold handleRespond, handleRespondLater, handleSetImportant,
           handleCalendarResponse, handleSchedule, handleReprioritize;
         simpl; eexists _, _; reflexivity).
  - unfold handleReadEmails, tryCatch, mbind, Async_bind, await.
    destruct (fetchEmails svc settings console) as [c' [emails|e]]; eexists _, _; reflexivity.
  - unfold handleReadAgenda, tryCatch, mbind, Async_bind, await.
    destruct (fetchCalendarEvents svc settings console) as [c' [events|e]];
      eexists _, _; reflexivity.
Qed.

(** X2.  The promise of [processCommand] is always fulfilled: whatever the
    utterance, the settings and the behaviour of the two services, it
    settles with a response and never with an exception. *)
Theorem processCommand_fulfilled (u : string) (console : list ConsoleEntry) :
  ∃ console' response,
    processCommand env svc u settings console = (console', Normal response).
Proof.
  unfold processCommand. cbv zeta.
  apply (handler_fulfilled (type (parseCommand u)) (payload (parseCommand u))).
  apply parseCommand_payload_fits.
Qed.

(** X3.  When the email fetch is rejected during READ_EMAILS, the promise
    is fulfilled with the fixed apology for emails, and the error is
    written to the console once. *)
Theorem read_emails_fetch_failure (u : string) (console console' : list ConsoleEntry)
    (error : JsError) :
  type (parseCommand u) = READ_EMAILS →
  fetchEmails svc settings console = (console', Throw error) →
  processCommand env svc u settings console
  = (console' ++ [ {| label := "Error reading emails:"; logged := error |} ],
     Normal {| message :=
       "I'm sorry, I couldn't read your emails at this time. Please try again later." |}).
Proof.
  intros Ht Hfetch. unfold processCommand. cbv zeta. rewrite Ht.
  unfold handleReadEmails, tryCatch, mbind, Async_bind, await.
  by rewrite Hfetch.
Qed.

End Fulfilled.

Lemma read_emails_fetch_failure_witness :
  type (parseCommand "Read my emails, please") = READ_EMAILS
  ∧ fetchEmails Sample.failing (Sample.settingsWith detailed) [] = ([], Throw Sample.failure)
  ∧ processCommand Sample.evening Sample.failing "Read my emails, please"
      (Sample.settingsWith detailed) []
    = ([ {| label := "Error reading emails:"; logged := Sample.failure |} ],
       Normal {| message :=
         "I'm sorry, I couldn't read your emails at this time. Please try again later." |}).
Proof.
  split; [reflexivity|]. split; [reflexivity|].
  apply (read_emails_fetch_failure Sample.evening Sample.failing (Sample.settingsWith detailed)
           "Read my emails, please" [] [] Sample.failure); reflexivity.
Defined.

(** X4.  Only READ_EMAILS and READ_AGENDA reach the services, the clock or
    the console: for every other intent the outcome is the same under any
    services and any runtime, and the console is left as it was. *)
Theorem processCommand_pure_intents (env env' : Env) (svc svc' : Services)
    (settings : Settings) (u : string) (console : list ConsoleEntry) :
  Laws.reads (type (parseCommand u)) = false →
  processCommand env svc u settings console = processCommand env' svc' u settings console
  ∧ (processCommand env svc u settings console).1 = console.
Proof.
  intros Hr. pose proof (parseCommand_payload_fits u) as Hfit.
  unfold processCommand. cbv zeta.
  destruct (type (parseCommand u)), (payload (parseCommand u));
    try discriminate Hr; try destruct Hfit; split; reflexivity.
Qed.

Lemma processCommand_pure_intents_witness :
  Laws.reads (type (parseCommand "schedule lunch with Sam at noon")) = false
  ∧ processCommand Sample.morning Sample.failing "schedule lunch with Sam at noon"
      (Sample.settingsWith medium) []
    = processCommand Sample.evening (Sample.serving Sample.inbox [])
        "schedule lunch with Sam at noon" (Sample.settingsWith medium) []
  ∧ (processCommand Sample.morning Sample.failing "schedule lunch with Sam at noon"
       (Sample.settingsWith medium) []).1 = [].
Proof.
  split; [reflexivity|].
  apply (processCommand_pure_intents Sample.morning Sample.evening Sample.failing
           (Sample.serving Sample.inbox []) (Sample.settingsWith medium)
           "schedule lunch with Sam at noon" []).
  reflexivity.
Defined.

(** ** Clock times and durations *)

Lemma hours_of_timeOfDay (env : Env) (t : Z) :
  Date.getHours env t = Laws.timeOfDay env t / Date.msPerHour.
Proof.
  unfold Date.getHours, Laws.timeOfDay, Date.msPerHour, Date.msPerDay.
  generalize (Date.localTime env t). intros x.
  Z.div_mod_to_equations. lia.
Qed.

Lemma minutes_of_timeOfDay (env : Env) (t : Z) :
  Date.getMinutes env t = (Laws.timeOfDay env t / Date.msPerMinute) mod 60.
Proof.
  unfold Date.getMinutes, Laws.timeOfDay, Date.msPerMinute, Date.msPerDay.
  generalize (Date.localTime env t). intros x.
  Z.div_mod_to_equations. lia.
Qed.

(** X5.  [formatTime] shows the local time of day and nothing else: two
    instants at the same time of day, in whatever time zones and on
    whatever days, are written alike. *)
Theorem formatTime_time_of_day (env1 env2 : Env) (t1 t2 : Z) :
  Laws.timeOfDay env1 t1 = Laws.timeOfDay env2 t2 →
  formatTime env1 t1 = formatTime env2 t2.
Proof.
  intros Heq. unfold formatTime.
  by rewrite !hours_of_timeOfDay, !minutes_of_timeOfDay, Heq.
Qed.

Lemma formatTime_time_of_day_witness :
  Laws.timeOfDay Sample.morning (Sample.day0 + 9 * Sample.hour)
  = Laws.timeOfDay {| now := 0; tzOffset := 2 * Sample.hour |}
      (Sample.day0 + 3 * Date.msPerDay + 7 * Sample.hour)
  ∧ formatTime Sample.morning (Sample.day0 + 9 * Sample.hour)
    = formatTime {| now := 0; tzOffset := 2 * Sample.hour |}
        (Sample.day0 + 3 * Date.msPerDay + 7 * Sample.hour).
Proof.
  split; [reflexivity|].
  apply (formatTime_time_of_day Sample.morning {| now := 0; tzOffset := 2 * Sample.hour |}).
  reflexivity.
Defined.

(** X6.  The text of [formatTime] is an hour from 1 to 12, a colon, the
    minute from 0 to 59 written with two digits, and "am" before local
    noon, "pm" from noon on; midnight and noon show as 12. *)
Theorem formatTime_shape (env : Env) (t : Z) :
  let tod := Laws.timeOfDay env t in
  let h := (tod / Date.msPerHour + 11) mod 12 + 1 in
  let m := (tod / Date.msPerMinute) mod 60 in
  1 <= h <= 12 ∧ 0 <= m <= 59
  ∧ (tod / Date.msPerHour = 0 ∨ tod / Date.msPerHour = 12 → h = 12)
  ∧ formatTime env t
    = Js.ofZ h +:+ ":" +:+ (if m <? 10 then "0" else "") +:+ Js.ofZ m +:+
      (if tod <? 12 * Date.msPerHour then "am" else "pm").
Proof.
  cbv zeta. unfold formatTime.
  rewrite hours_of_timeOfDay, minutes_of_timeOfDay.
  assert (Htod : 0 <= Laws.timeOfDay env t < Date.msPerDay)
    by (apply Z.mod_pos_bound; reflexivity).
  set (tod := Laws.timeOfDay env t) in *.
  unfold Date.msPerHour, Date.msPerMinute, Date.msPerDay in *.
  assert (Hh : 0 <= tod / 3600000 < 24) by (Z.div_mod_to_equations; lia).
  split; [Z.div_mod_to_equations; lia|].
  split; [Z.div_mod_to_equations; lia|].
  split; [intros [->| ->]; reflexivity|].
  assert (Hhour : (if (tod / 3600000) mod 12 =? 0 then 12 else (tod / 3600000) mod 12)
                  = (tod / 3600000 + 11) mod 12 + 1).
  { destruct (Z.eqb_spec ((tod / 3600000) mod 12) 0); Z.div_mod_to_equations; lia. }
  assert (Hpm : (12 <=? tod / 3600000) = negb (tod <? 12 * 3600000)).
  { destruct (Z.leb_spec 12 (tod / 3600000)), (Z.ltb_spec tod (12 * 3600000));
      try reflexivity; Z.div_mod_to_equations; lia. }
  rewrite Hhour, Hpm.
  destruct (tod <? 12 * 3600000), ((tod / 60000) mod 60 <? 10); reflexivity.
Qed.

Lemma roundMinutes_near (m d : Z) :
  -30000 <= d < 30000 → roundMinutes (m * 60000 + d) = m.
Proof. intros Hd. unfold roundMinutes. Z.div_mod_to_equations. lia. Qed.

(** X7.  A duration within half a minute of [h] hours and [r] minutes is
    worded from [h] and [r]: under an hour it is "[r] minutes", also for
    one minute; from an hour on the hours and, when not zero, the minutes
    follow, each with its own singular and plural. *)
Theorem calculateDuration_text (start h r d : Z) :
  0 <= h → 0 <= r < 60 → -30000 <= d < 30000 →
  calculateDuration start (start + (60 * h + r) * 60000 + d) = Laws.durationText h r.
Proof.
  intros Hh Hr Hd. unfold calculateDuration, Laws.durationText. cbv zeta.
  replace (start + (60 * h + r) * 60000 + d - start) with ((60 * h + r) * 60000 + d) by lia.
  rewrite roundMinutes_near by done.
  assert (Hq : (60 * h + r) / 60 = h) by (Z.div_mod_to_equations; lia).
  assert (Hrem : Z.rem (60 * h + r) 60 = r).
  { rewrite Z.rem_mod_nonneg by lia. Z.div_mod_to_equations. lia. }
  rewrite Hq, Hrem.
  destruct (Z.eqb_spec h 0) as [->|Hne].
  - destruct (Z.ltb_spec (60 * 0 + r) 60); [|lia]. by rewrite Z.add_0_l.
  - destruct (Z.ltb_spec (60 * h + r) 60); [lia|reflexivity].
Qed.

Lemma calculateDuration_text_witness :
  calculateDuration Sample.day0 (Sample.day0 + (60 * 0 + 1) * 60000 + 20000) = "1 minutes"
  ∧ calculateDuration Sample.day0 (Sample.day0 + (60 * 1 + 1) * 60000 + (-30000))
    = "1 hour and 1 minute".
Proof.
  split.
  - apply (calculateDuration_text Sample.day0 0 1 20000); lia.
  - apply (calculateDuration_text Sample.day0 1 1 (-30000)); lia.
Defined.

(** X8.  An end before the start is not rejected: the negative number of
    minutes is printed as it is. *)
Theorem calculateDuration_negative (start m : Z) :
  0 < m →
  calculateDuration (start + m * 60000) start = "-" +:+ Js.ofZ m +:+ " minutes".
Proof.
  intros Hm. unfold calculateDuration. cbv zeta.
  replace (start - (start + m * 60000)) with ((- m) * 60000 + 0) by lia.
  rewrite roundMinutes_near by lia.
  destruct (Z.ltb_spec (- m) 60); [|lia].
  assert (Hneg : Js.ofZ (- m) = "-" +:+ Js.ofZ m)
    by (destruct m as [|p|p]; try lia; reflexivity).
  by rewrite Hneg, append_assoc.
Qed.

Lemma calculateDuration_negative_witness :
  calculateDuration (Sample.day0 + 5 * 60000) Sample.day0 = "-5 minutes".
Proof. apply (calculateDuration_negative Sample.day0 5). lia. Defined.

(** ** Conflicts inside the calendar summary *)

Lemma prefix_here (p s : string) : String.prefix p (p +:+ s) = true.
Proof.
  induction p as [|c p IH]; simpl; [by destruct s|].
  destruct (ascii_dec c c); [exact IH|congruence].
Qed.

Lemma prefix_app_l (p s t : string) :
  String.prefix p s = true → String.prefix p (s +:+ t) = true.
Proof.
  revert s. induction p as [|c p IH]; intros s Hp; simpl; [by destruct (s +:+ t)|].
  destruct s as [|d s]; [discriminate Hp|].
  change (String d s +:+ t) with (String d (s +:+ t)). simpl in *.
  destruct (ascii_dec c d); [by apply IH|discriminate Hp].
Qed.

Lemma includes_app_l (s t pat : string) :
  Js.includes s pat = true → Js.includes (s +:+ t) pat = true.
Proof.
  induction s as [|c s IH]; intros Hs.
  - simpl in Hs. rewrite orb_false_r in Hs.
    destruct pat; [|discriminate Hs]. by destruct t.
  - change (String c s +:+ t) with (String c (s +:+ t)).
    simpl in *. apply orb_true_iff in Hs as [Hp|Hs].
    + destruct pat as [|d pat]; [done|].
      destruct (ascii_dec d c); [|discriminate Hp].
      by rewrite (prefix_app_l pat s t Hp).
    + rewrite (IH Hs). apply orb_true_r.
Qed.


Lemma StronglySorted_lookup_lt {A : Type} (R : A → A → Prop) (l : list A)
    (i j : nat) (a b : A) :
  StronglySorted R l → (i < j)%nat → l !! i = Some a → l !! j = Some b → R a b.
Proof.
  intros Hl. revert i j. induction Hl as [|x l Hl IH Hx]; intros i j Hij Hi Hj; [done|].
  destruct j as [|j]; [lia|]. simpl in Hj.
  destruct i as [|i]; simpl in Hi.
  - injection Hi as ->. rewrite Forall_forall in Hx.
    by apply Hx, list_elem_of_lookup_2 with j.
  - apply (IH i j); [lia|done|done].
Qed.

(** Where a reported conflict comes from. *)
Lemma conflict_origin (events : list Event.t) (c : Conflict.t) :
  c ∈ findScheduleConflicts events →
  ∃ i j, (i < j)%nat ∧ Spec.conflictAt events (i, j) c
         ∧ Spec.overlaps (Conflict.event1 c) (Conflict.event2 c).
Proof.
  intros Hc. rewrite findScheduleConflicts_flat_map in Hc.
  apply list_elem_of_lookup_1 in Hc as [k Hk].
  destruct (Forall2_lookup_r _ _ _ _ _
              (one_conflictAt events (Spec.allPairs (length events))) Hk)
    as ([i j] & Hp & Hat).
  apply list_elem_of_lookup_2, list_elem_of_In, filter_In in Hp as [Hin Hov].
  apply list_elem_of_In, elem_of_allPairs in Hin.
  apply overlapping_spec in Hov as (a & b & Ha & Hb & Hab).
  exists i, j. split; [lia|]. split; [exact Hat|].
  destruct Hat as (Ha' & Hb' & _). cbn [fst snd] in *.
  rewrite Ha in Ha'. rewrite Hb in Hb'. by injection Ha' as <-; injection Hb' as <-.
Qed.

(** Two overlapping events at different positions are reported. *)
Lemma overlap_reported (events : list Event.t) (i j : nat) (a b : Event.t) :
  i ≠ j → events !! i = Some a → events !! j = Some b → Spec.overlaps a b →
  findScheduleConflicts events ≠ [].
Proof.
  intros Hij Ha Hb Hab Hnil.
  pose proof (one_conflictAt events (Spec.allPairs (length events))) as Hall.
  rewrite <- findScheduleConflicts_flat_map, Hnil in Hall.
  apply Forall2_nil_inv_r in Hall.
  assert (Hin : ∀ p, p ∈ Spec.allPairs (length events) →
                     Spec.overlapping events p = true → False).
  { intros p Hp Hov.
    assert (p ∈ List.filter (Spec.overlapping events) (Spec.allPairs (length events)))
      by (apply list_elem_of_In, filter_In; split; [by apply list_elem_of_In|done]).
    rewrite Hall in *. by apply elem_of_nil in H. }
  pose proof (lookup_lt_Some _ _ _ Ha). pose proof (lookup_lt_Some _ _ _ Hb).
  destruct (Nat.lt_total i j) as [Hlt|[Heq|Hgt]]; [|done|].
  - apply (Hin (i, j)); [apply elem_of_allPairs; lia|].
    apply overlapping_spec. by exists a, b.
  - apply (Hin (j, i)); [apply elem_of_allPairs; lia|].
    apply overlapping_spec. exists b, a. unfold Spec.overlaps in *. by intuition.
Qed.



(** X10.  A conflict between two events that each end after they start
    has an overlap of positive length, lying inside both events. *)
Theorem conflict_overlap_positive (events : list Event.t) (c : Conflict.t) :
  c ∈ findScheduleConflicts events →
  Event.start (Conflict.event1 c) < Event.end_ (Conflict.event1 c) →
  Event.start (Conflict.event2 c) < Event.end_ (Conflict.event2 c) →
  Conflict.overlapStart c < Conflict.overlapEnd c
  ∧ Event.start (Conflict.event1 c) <= Conflict.overlapStart c
  ∧ Event.start (Conflict.event2 c) <= Conflict.overlapStart c
  ∧ Conflict.overlapEnd c <= Event.end_ (Conflict.event1 c)
  ∧ Conflict.overlapEnd c <= Event.end_ (Conflict.event2 c).
Proof.
  intros Hc H1 H2.
  apply conflict_origin in Hc as (i & j & _ & (_ & _ & Hs & He) & Hov).
  unfold Spec.overlaps in Hov. lia.
Qed.

Lemma conflict_overlap_positive_witness :
  let c := {| Conflict.event1 := Sample.eventA; Conflict.event2 := Sample.eventB;
              Conflict.overlapStart := Event.start Sample.eventB;
              Conflict.overlapEnd := Event.end_ Sample.eventA;
              Conflict.duration := Qmake 1800000 60000 |} in
  c ∈ findScheduleConflicts [Sample.eventA; Sample.eventB; Sample.eventC]
  ∧ Conflict.overlapStart c < Conflict.overlapEnd c.
Proof.
  cbv zeta.
  assert (Hin : {| Conflict.event1 := Sample.eventA; Conflict.event2 := Sample.eventB;
                   Conflict.overlapStart := Event.start Sample.eventB;
                   Conflict.overlapEnd := Event.end_ Sample.eventA;
                   Conflict.duration := Qmake 1800000 60000 |}
                ∈ findScheduleConflicts [Sample.eventA; Sample.eventB; Sample.eventC]).
  { vm_compute. left. }
  split; [exact Hin|].
  apply (conflict_overlap_positive _ _ Hin); vm_compute; reflexivity.
Defined.

(** X11.  Whenever two of the fetched events overlap, whatever their day,
    their positions in the list and the verbosity, the calendar summary
    carries the conflict section. *)
Theorem calendar_summary_reports_conflicts (env : Env) (events : list Event.t)
    (settings : Settings) (i j : nat) (a b : Event.t) :
  i ≠ j → events !! i = Some a → events !! j = Some b → Spec.overlaps a b →
  Js.includes (generateCalendarSummary env events settings) Laws.conflictHeader = true.
Proof.
  intros Hij Ha Hb Hab.
  pose proof (sort_perm Laws.byStart events) as Hperm.
  apply Permutation_inj in Hperm as (_ & f & Hinj & Hf).
  assert (Hne : findScheduleConflicts (JsArray.sort Laws.byStart events) ≠ []).
  { apply (overlap_reported _ (f i) (f j) a b); [|by rewrite <- Hf|by rewrite <- Hf|done].
    intros Heq. by apply Hij, Hinj. }
  unfold generateCalendarSummary. cbv zeta.
  change (λ a0 b0 : Event.t, Event.start a0 - Event.start b0) with Laws.byStart.
  destruct (findScheduleConflicts (JsArray.sort Laws.byStart events)) as [|c cs] eqn:E;
    [done|].
  cbn [length Nat.ltb Nat.leb].
  apply includes_app_l.
  match goal with
  | |- Js.includes (if ?b then _ else _) _ = true => destruct b
  end.
  - match goal with
    | |- Js.includes (if ?b then _ else _) _ = true => destruct b
    end; [apply includes_app_l|]; apply includes_app_r, includes_here.
  - apply includes_app_r, includes_here.
Qed.

Lemma calendar_summary_reports_conflicts_witness :
  Spec.overlaps Sample.eventB Sample.eventA
  ∧ Js.includes
      (generateCalendarSummary Sample.nextMorning [Sample.eventC; Sample.eventB; Sample.eventA]
         (Sample.settingsWith concise))
      Laws.conflictHeader = true.
Proof.
  assert (Hov : Spec.overlaps Sample.eventB Sample.eventA) by (split; reflexivity).
  split; [exact Hov|].
  apply (calendar_summary_reports_conflicts Sample.nextMorning
           [Sample.eventC; Sample.eventB; Sample.eventA] (Sample.settingsWith concise)
           1 2 Sample.eventB Sample.eventA); [lia|reflexivity|reflexivity|exact Hov].
Defined.

(** ** The opening of the calendar summary *)

Lemma filter_bool_perm {A : Type} (f : A → bool) (l l' : list A) :
  Permutation l l' → Permutation (List.filter f l) (List.filter f l').
Proof.
  induction 1 as [|x l l' H IH|x y l|l l' l'' H1 IH1 H2 IH2]; simpl.
  - done.
  - destruct (f x); [by constructor|done].
  - destruct (f x), (f y); try done. apply perm_swap.
  - by etrans.
Qed.

(** Two prefixes of one string: one is a prefix of the other. *)
Lemma prefix_comparable (p q s : string) :
  String.prefix p s = true → String.prefix q s = true →
  String.prefix p q = true ∨ String.prefix q p = true.
Proof.
  revert p q. induction s as [|c s IH]; intros p q Hp Hq.
  - destruct p; [left; by destruct q|discriminate Hp].
  - destruct p as [|a p]; [left; by destruct q|]. destruct q as [|b q]; [by right|].
    simpl in *.
    destruct (ascii_dec a c) as [->|]; [|discriminate Hp].
    destruct (ascii_dec b c) as [->|]; [|discriminate Hq].
    destruct (ascii_dec c c); [|congruence]. by apply IH.
Qed.

(** A number is written with a digit or a sign first. *)
Lemma ofNat_head (n : nat) :
  ∃ d ds, Js.ofNat n = String d ds
          ∧ In d ["0"; "1"; "2"; "3"; "4"; "5"; "6"; "7"; "8"; "9"; "-"]%char.
Proof.
  unfold Js.ofNat, Js.ofZ. destruct (Z.of_nat n) as [|p|p]; simpl.
  - eexists _, _. split; [reflexivity|]. simpl. tauto.
  - unfold NilZero.string_of_uint.
    destruct (Pos.to_uint p); simpl; eexists _, _; (split; [reflexivity|]); simpl; tauto.
  - eexists _, _. split; [reflexivity|]. simpl. tauto.
Qed.

(** X12.  The calendar summary opens with the number of events that start
    within the current local day, counted over the whole fetched list,
    and with the fixed sentence for no event when there is none; the two
    openings exclude each other. *)
Theorem calendar_summary_opening (env : Env) (events : list Event.t) (settings : Settings) :
  let n := length (List.filter (Laws.startsToday env) events) in
  String.prefix (Laws.todaySentence n) (generateCalendarSummary env events settings) = true
  ∧ (n = 0%nat →
     String.prefix "You have no events scheduled for today."
                   (generateCalendarSummary env events settings) = true)
  ∧ ((0 < n)%nat →
     String.prefix "You have no events scheduled for today."
                   (generateCalendarSummary env events settings) = false).
Proof.
  cbv zeta.
  set (n := length (List.filter (Laws.startsToday env) events)).
  assert (Hpre : String.prefix (Laws.todaySentence n)
                   (generateCalendarSummary env events settings) = true).
  { unfold generateCalendarSummary. cbv zeta.
    change (λ a b : Event.t, Event.start a - Event.start b) with Laws.byStart.
    change (λ event : Event.t,
              (Date.startOfDay env (now env) <=? Event.start event) &&
              (Event.start event <? Date.addDays (Date.startOfDay env (now env)) 1))
      with (Laws.startsToday env).
    assert (Hn : length (List.filter (Laws.startsToday env) (JsArray.sort Laws.byStart events))
                 = n).
    { symmetry. apply Permutation_length, filter_bool_perm, sort_perm. }
    rewrite Hn. unfold Laws.todaySentence.
    destruct (0 <? n)%nat;
      repeat match goal with
             | |- String.prefix _ (if ?b then _ else _) = true => destruct b
             | |- String.prefix _ (?s +:+ _) = true =>
                 lazymatch s with
                 | EmptyString => fail
                 | _ => apply prefix_app_l
                 end
             end;
      change ("" +:+ ?x) with x;
      first
        [ apply (prefix_here "You have no events scheduled for today.")
        | match goal with
          | |- String.prefix ?p (?a +:+ ?b +:+ ?c +:+ ?d +:+ ?e +:+ ?rest) = true =>
              replace (a +:+ b +:+ c +:+ d +:+ e +:+ rest) with (p +:+ rest)
                by (rewrite !append_assoc; reflexivity);
              apply prefix_here
          end ].
  }
  split; [exact Hpre|]. split.
  - intros Hz. rewrite Hz in Hpre. exact Hpre.
  - intros Hpos. unfold Laws.todaySentence in Hpre.
    destruct (Nat.ltb_spec 0 n); [|lia].
    destruct (String.prefix "You have no events scheduled for today."
                (generateCalendarSummary env events settings)) eqn:Hq; [exfalso|done].
    destruct (ofNat_head n) as (d & ds & Hd & Hin). rewrite Hd in Hpre.
    destruct (prefix_comparable _ _ _ Hpre Hq) as [Hc|Hc];
      repeat (destruct Hin as [<-|Hin]; [vm_compute in Hc; discriminate Hc|]);
      destruct Hin.
Qed.

Lemma calendar_summary_opening_witness :
  length (List.filter (Laws.startsToday Sample.nextMorning) [Sample.eventA; Sample.eventB])
  = 0%nat
  ∧ String.prefix "You have no events scheduled for today."
      (generateCalendarSummary Sample.nextMorning [Sample.eventA; Sample.eventB]
         (Sample.settingsWith detailed)) = true.
Proof.
  split; [reflexivity|].
  apply (proj1 (proj2 (calendar_summary_opening Sample.nextMorning
                         [Sample.eventA; Sample.eventB] (Sample.settingsWith detailed)))).
  reflexivity.
Defined.

(** ** More on sorting and ranking *)

Section SortMore.
Context {A : Type} (cmp : A → A → Z) (Hcmp : Spec.Consistent cmp).

(** Sorting what is already in order changes nothing. *)
Lemma sort_of_sorted (l : list A) :
  StronglySorted (Spec.notAfter cmp) l → JsArray.sort cmp l = l.
Proof.
  intros Hl. symmetry. apply (jsSort_unique cmp Hcmp). by repeat split.
Qed.

Lemma sort_idem (l : list A) : JsArray.sort cmp (JsArray.sort cmp l) = JsArray.sort cmp l.
Proof. apply sort_of_sorted, sort_sorted, Hcmp. Qed.

(** A list of equal elements has one arrangement. *)
Lemma Permutation_constant (l l' : list A) :
  Permutation l l' → (∀ a b, a ∈ l → b ∈ l → a = b) → l = l'.
Proof.
  intros Hperm. revert l' Hperm. induction l as [|x l IH]; intros l' Hperm Hall.
  - by apply Permutation_nil in Hperm.
  - destruct l' as [|y l']; [by apply Permutation_sym, Permutation_nil in Hperm|].
    assert (y = x) as ->.
    { apply Hall; [|by left]. rewrite Hperm. by left. }
    f_equal. apply IH; [by eapply Permutation_cons_inv|].
    intros a b Ha Hb. apply Hall; by right.
Qed.

(** Without ties between different elements the order of the input does
    not show in the output. *)
Lemma sort_order_independent (l1 l2 : list A) :
  Permutation l1 l2 →
  (∀ a b, a ∈ l1 → b ∈ l1 → cmp a b = 0 → a = b) →
  JsArray.sort cmp l1 = JsArray.sort cmp l2.
Proof.
  intros Hperm Hties.
  apply (stable_sorted_eq cmp Hcmp); [|by apply sort_sorted|by apply sort_sorted|].
  - rewrite <- !sort_perm. exact Hperm.
  - intros x. rewrite !(sort_tied cmp Hcmp). unfold Spec.tiedWith.
    apply Permutation_constant; [by apply filter_bool_perm|].
    intros a b Ha Hb.
    apply list_elem_of_In, filter_In in Ha as [Ha Hxa].
    apply list_elem_of_In, filter_In in Hb as [Hb Hxb].
    apply Z.eqb_eq in Hxa, Hxb.
    apply Hties; [by apply list_elem_of_In|by apply list_elem_of_In|].
    pose proof (cmp_tie_trans cmp Hcmp x a b Hxa Hxb).
    pose proof (cmp_tie_trans cmp Hcmp x b a Hxb Hxa).
    pose proof (Spec.cmp_antisym cmp Hcmp a b). lia.
Qed.

End SortMore.

Section RankMore.
Context {A : Type} `{Prioritizable A} (settings : Settings).

(** X13.  Ranking is idempotent: ranking a list that was already ranked
    with the same settings returns it unchanged. *)
Theorem prioritizeItems_idempotent (items : list A) :
  prioritizeItems (prioritizeItems items settings) settings = prioritizeItems items settings.
Proof. apply sort_idem, prioritizeCompare_consistent. Qed.

(** X14.  When no two different items agree on all three keys, the
    ranking does not depend on the order in which the items arrive. *)
Theorem prioritizeItems_order_independent (items items' : list A) :
  Permutation items items' →
  (∀ a b, a ∈ items → b ∈ items →
          Spec.rankKeys settings a = Spec.rankKeys settings b → a = b) →
  prioritizeItems items settings = prioritizeItems items' settings.
Proof.
  intros Hperm Hkeys.
  apply (sort_order_independent _ (prioritizeCompare_consistent settings)); [done|].
  intros a b Ha Hb Hc. apply Hkeys; [done|done|]. by apply prioritizeCompare_tie.
Qed.

End RankMore.

Lemma prioritizeItems_order_independent_witness :
  Permutation [Sample.older; Sample.newer; Sample.unreadPlain]
              [Sample.unreadPlain; Sample.older; Sample.newer]
  ∧ prioritizeItems [Sample.older; Sample.newer; Sample.unreadPlain]
      (Sample.settingsWith medium)
    = prioritizeItems [Sample.unreadPlain; Sample.older; Sample.newer]
        (Sample.settingsWith medium).
Proof.
  assert (Hperm : Permutation [Sample.older; Sample.newer; Sample.unreadPlain]
                              [Sample.unreadPlain; Sample.older; Sample.newer]).
  { change [Sample.unreadPlain; Sample.older; Sample.newer]
      with ([Sample.unreadPlain] ++ [Sample.older; Sample.newer]).
    apply (Permutation_app_comm [Sample.older; Sample.newer] [Sample.unreadPlain]). }
  split; [exact Hperm|].
  apply (prioritizeItems_order_independent (Sample.settingsWith medium) _ _ Hperm).
  intros a b Ha Hb Hk.
  repeat (apply elem_of_cons in Ha as [->|Ha]); [| | |by apply elem_of_nil in Ha];
    repeat (apply elem_of_cons in Hb as [->|Hb]); try (by apply elem_of_nil in Hb);
    try reflexivity; vm_compute in Hk; discriminate Hk.
Defined.

(** ** Which emails the summary narrates *)

(** In the order of the email summary the important emails come first. *)
Lemma important_first_split (l : list Email.t) :
  StronglySorted Spec.importantRecentFirst l →
  l = List.filter Email.isImportant l
      ++ List.filter (fun e => negb (Email.isImportant e)) l.
Proof.
  induction 1 as [|a l Hl IH Ha]; [done|]. simpl.
  destruct (Email.isImportant a) eqn:Ea; simpl; [by rewrite <- IH|].
  assert (Hnone : List.filter Email.isImportant l = []).
  { clear IH Hl. induction l as [|b l IHl]; [done|].
    apply Forall_cons in Ha as [Hb Ha]. simpl.
    destruct Hb as [[Hab _]|[Hab _]]; [congruence|].
    rewrite <- Hab, Ea. by apply IHl. }
  rewrite Hnone in *. simpl in *. by rewrite <- IH.
Qed.

(** X15.  Under "concise", "medium" and "detailed" no important email is
    left out as long as there are at most 3, 5 and 7 important ones; and
    when there are at least that many, only important emails are
    narrated. *)
Theorem important_emails_narrated (emails : list Email.t) (settings : Settings) (k : nat) :
  limits (summaryLength settings) = Some k →
  ((Spec.importantCount emails <= k)%nat →
   ∀ e, e ∈ emails → Email.isImportant e = true → e ∈ emailsToSummarize emails settings)
  ∧ ((k <= Spec.importantCount emails)%nat →
     ∀ e, e ∈ emailsToSummarize emails settings → Email.isImportant e = true).
Proof.
  intros Hk. rewrite (emailsToSummarize_limited emails settings k Hk).
  pose proof (sort_stable emailCompare emailCompare_consistent emails) as (Hperm & Hs & _).
  assert (Hsorted : StronglySorted Spec.importantRecentFirst (JsArray.sort emailCompare emails)).
  { eapply StronglySorted_weaken; [|exact Hs]. intros a b. apply emailCompare_notAfter. }
  assert (Hcount : Spec.importantCount emails
                   = length (List.filter Email.isImportant (JsArray.sort emailCompare emails))).
  { unfold Spec.importantCount. by apply Permutation_length, filter_bool_perm. }
  rewrite Hcount.
  assert (Htake : take k (JsArray.sort emailCompare emails)
                  = take k (List.filter Email.isImportant (JsArray.sort emailCompare emails)
                            ++ List.filter (fun e => negb (Email.isImportant e))
                                           (JsArray.sort emailCompare emails)))
    by (by rewrite <- (important_first_split _ Hsorted)).
  rewrite Htake.
  split; intros Hle e He.
  - intros Himp. rewrite take_app_ge by done. apply elem_of_app. left.
    apply list_elem_of_In, filter_In. split; [|done].
    apply list_elem_of_In. by rewrite <- Hperm.
  - rewrite take_app_le in He by done.
    apply subseteq_take, list_elem_of_In, filter_In in He. tauto.
Qed.

Lemma important_emails_narrated_witness :
  limits (summaryLength (Sample.settingsWith concise)) = Some 3%nat
  ∧ (Spec.importantCount Sample.inbox <= 3)%nat
  ∧ ∀ e, e ∈ Sample.inbox → Email.isImportant e = true →
         e ∈ emailsToSummarize Sample.inbox (Sample.settingsWith concise).
Proof.
  split; [reflexivity|]. split; [vm_compute; lia|].
  apply (proj1 (important_emails_narrated Sample.inbox (Sample.settingsWith concise) 3 eq_refl)).
  vm_compute. lia.
Defined.

(** ** Priority contacts: the panel and the ranker *)

Section Panel.
Import SettingsPanel.

Local Abbreviation contactsOf st := (priorityContacts (settings st)).

Lemma addPriorityContact_contacts (st : State) :
  contactsOf (addPriorityContact st)
  = if bool_decide (newContact st ≠ "") && negb (bool_decide (newContact st ∈ contactsOf st))
    then contactsOf st ++ [newContact st] else contactsOf st.
Proof. unfold addPriorityContact. by destruct (_ && _). Qed.

Lemma elem_of_removed (st : State) (contact x : string) :
  x ∈ contactsOf (removePriorityContact st contact) ↔ x ≠ contact ∧ x ∈ contactsOf st.
Proof.
  unfold removePriorityContact. cbn.
  rewrite list_elem_of_In, filter_In, bool_decide_eq_true, <- list_elem_of_In. tauto.
Qed.

Lemma removed_sublist (st : State) (contact : string) :
  contactsOf (removePriorityContact st contact) `sublist_of` contactsOf st.
Proof.
  unfold removePriorityContact. cbn.
  induction (contactsOf st) as [|x l IH]; simpl; [done|].
  destruct (bool_decide (x ≠ contact)); by constructor.
Qed.

(** X16.  Adding and removing keep the contact list well kept: no contact
    is stored twice and the empty string is never stored; neither touches
    the other settings. *)
Theorem contacts_well_kept (st : State) (contact : string) :
  Laws.wellKept (contactsOf st) →
  Laws.wellKept (contactsOf (addPriorityContact st))
  ∧ Laws.wellKept (contactsOf (removePriorityContact st contact))
  ∧ summaryLength (settings (addPriorityContact st)) = summaryLength (settings st)
  ∧ reminderDefaultTime (settings (addPriorityContact st)) = reminderDefaultTime (settings st)
  ∧ summaryLength (settings (removePriorityContact st contact)) = summaryLength (settings st)
  ∧ reminderDefaultTime (settings (removePriorityContact st contact))
    = reminderDefaultTime (settings st).
Proof.
  intros [Hnd Hne]. split; [|split; [|repeat split]].
  - rewrite addPriorityContact_contacts.
    destruct (bool_decide (newContact st ≠ "")) eqn:E1; simpl; [|done].
    destruct (bool_decide (newContact st ∈ contactsOf st)) eqn:E2; simpl; [done|].
    apply bool_decide_eq_true in E1. apply bool_decide_eq_false in E2.
    split.
    + apply NoDup_app. split; [done|]. split; [|apply NoDup_singleton].
      intros x Hx Hx'. apply list_elem_of_singleton in Hx' as ->. done.
    + rewrite elem_of_app, list_elem_of_singleton. intros [?|?]; [done|]. by apply E1.
  - split.
    + exact (sublist_NoDup _ _ Hnd (removed_sublist st contact)).
    + rewrite elem_of_removed. tauto.
  - unfold addPriorityContact. by destruct (_ && _).
  - unfold addPriorityContact. by destruct (_ && _).
Qed.

Lemma filter_absent (contact : string) (l : list string) :
  contact ∉ l → List.filter (fun c => bool_decide (c ≠ contact)) l = l.
Proof.
  induction l as [|x l IH]; [done|]. intros Hnot. simpl.
  rewrite not_elem_of_cons in Hnot. destruct Hnot as [Hx Hl].
  rewrite bool_decide_eq_true_2 by done. by rewrite IH.
Qed.

(** X17.  Removing a contact removes it wherever it stands and keeps the
    other contacts in their order; removing a contact that was just added
    gives back the list as it was. *)
Theorem remove_priority_contact (st : State) (contact : string) :
  (contact ∉ contactsOf (removePriorityContact st contact))
  ∧ (∀ x, x ≠ contact →
          (x ∈ contactsOf (removePriorityContact st contact) ↔ x ∈ contactsOf st))
  ∧ (contactsOf (removePriorityContact st contact) `sublist_of` contactsOf st)
  ∧ (newContact st = contact → contact ∉ contactsOf st →
     contactsOf (removePriorityContact (addPriorityContact st) contact) = contactsOf st).
Proof.
  split; [rewrite elem_of_removed; tauto|].
  split; [intros x Hx; rewrite elem_of_removed; tauto|]. split.
  - apply removed_sublist.
  - intros Hnew Hfresh. unfold removePriorityContact. cbn.
    rewrite addPriorityContact_contacts, Hnew.
    destruct (_ && _) eqn:E; [|by apply filter_absent].
    rewrite List.filter_app, filter_absent by done. simpl.
    rewrite bool_decide_eq_false_2 by (intros Hc; by apply Hc).
    apply app_nil_r.
Qed.

(** X18.  Once a contact is added, every email from that contact is
    ranked before every email whose sender is not a priority contact. *)
Theorem added_contact_ranked_first (st : State) (emails : list Email.t) (i j : nat)
    (a b : Email.t) :
  newContact st ≠ "" →
  let settings' := settings (addPriorityContact st) in
  prioritizeItems emails settings' !! i = Some a →
  prioritizeItems emails settings' !! j = Some b →
  Contact.email (Email.from a) = newContact st →
  isPriorityContact settings' b = false →
  (i < j)%nat.
Proof.
  intros Hne settings' Ha Hb Hfrom Hb'.
  assert (Ha' : isPriorityContact settings' a = true).
  { unfold isPriorityContact. cbn. apply bool_decide_eq_true. rewrite Hfrom.
    unfold settings'. rewrite addPriorityContact_contacts.
    rewrite bool_decide_eq_true_2 by done. simpl.
    destruct (bool_decide (newContact st ∈ contactsOf st)) eqn:E; simpl.
    - by apply bool_decide_eq_true in E.
    - apply elem_of_app. right. by apply list_elem_of_singleton. }
  assert (Hcmp : prioritizeCompare settings' b a = 1).
  { unfold prioritizeCompare. cbv zeta. by rewrite Ha', Hb'. }
  pose proof (sort_sorted _ (prioritizeCompare_consistent settings') emails) as Hsorted.
  destruct (Nat.lt_total i j) as [Hlt|[Heq|Hgt]]; [done| |].
  - subst j. rewrite Ha in Hb. injection Hb as ->. congruence.
  - pose proof (StronglySorted_lookup_lt _ _ j i b a Hsorted Hgt Hb Ha) as Hle.
    unfold Spec.notAfter in Hle. lia.
Qed.

End Panel.

Lemma contacts_well_kept_witness :
  let st := {| SettingsPanel.settings := Sample.settingsWith medium;
               SettingsPanel.newContact := "john.smith@example.com" |} in
  Laws.wellKept (priorityContacts (SettingsPanel.settings st))
  ∧ priorityContacts (SettingsPanel.settings (SettingsPanel.addPriorityContact st))
    = ["sarah.j@example.com"; "john.smith@example.com"]
  ∧ Laws.wellKept
      (priorityContacts (SettingsPanel.settings (SettingsPanel.addPriorityContact st))).
Proof.
  cbv zeta.
  assert (Hkept : Laws.wellKept (priorityContacts (Sample.settingsWith medium))).
  { split; [apply NoDup_singleton|]. intros Hin. by apply list_elem_of_singleton in Hin. }
  split; [exact Hkept|]. split; [reflexivity|].
  exact (proj1 (contacts_well_kept
                  {| SettingsPanel.settings := Sample.settingsWith medium;
                     SettingsPanel.newContact := "john.smith@example.com" |} "" Hkept)).
Defined.

Lemma remove_priority_contact_witness :
  let st := {| SettingsPanel.settings := Sample.settingsWith medium;
               SettingsPanel.newContact := "john.smith@example.com" |} in
  priorityContacts
    (SettingsPanel.settings
       (SettingsPanel.removePriorityContact (SettingsPanel.addPriorityContact st)
          "john.smith@example.com"))
  = ["sarah.j@example.com"].
Proof.
  cbv zeta.
  apply (proj2 (proj2 (proj2 (remove_priority_contact
                  {| SettingsPanel.settings := Sample.settingsWith medium;
                     SettingsPanel.newContact := "john.smith@example.com" |}
                  "john.smith@example.com")))); [reflexivity|].
  intros Hin. apply list_elem_of_singleton in Hin. discriminate Hin.
Defined.

Lemma added_contact_ranked_first_witness :
  let st := {| SettingsPanel.settings :=
                 {| summaryLength := medium; priorityContacts := [];
                    reminderDefaultTime := 60 |};
               SettingsPanel.newContact := "sarah.j@example.com" |} in
  let ranked :=
    prioritizeItems Sample.inbox (SettingsPanel.settings (SettingsPanel.addPriorityContact st)) in
  ∃ a b, ranked !! 1%nat = Some a ∧ ranked !! 2%nat = Some b
         ∧ Contact.email (Email.from a) = "sarah.j@example.com"
         ∧ Contact.email (Email.from b) = "john.smith@example.com"
         ∧ (1 < 2)%nat.
Proof.
  cbv zeta. eexists _, _.
  split; [reflexivity|]. split; [reflexivity|]. split; [reflexivity|]. split; [reflexivity|].
  eapply (added_contact_ranked_first
            {| SettingsPanel.settings :=
                 {| summaryLength := medium; priorityContacts := [];
                    reminderDefaultTime := 60 |};
               SettingsPanel.newContact := "sarah.j@example.com" |}
            Sample.inbox 1 2); [discriminate|reflexivity|reflexivity|reflexivity|reflexivity].
Defined.

(** ** The caller: wake phrase and page updates *)

Section Caller.
Context (env : Env) (svc : Services) (settings : Settings).

(** [processCommand] sees its utterance through [parseCommand] only. *)
Lemma processCommand_parse (u u' : string) :
  parseCommand u = parseCommand u' →
  processCommand env svc u settings = processCommand env svc u' settings.
Proof. intros Heq. unfold processCommand. cbv zeta. by rewrite Heq. Qed.

Lemma parseCommand_trim (u : string) : parseCommand (Js.trim u) = parseCommand u.
Proof. unfold parseCommand; cbv zeta. by rewrite <- trim_toLowerCase, trim_idem. Qed.

Lemma toLowerCase_empty (s : string) : Js.toLowerCase s = "" → s = "".
Proof. by destruct s. Qed.

(** A literal matches, whatever the case, at the head of the input. *)
Lemma run_lit (pat w rest : string) (cap : option string) (k : Regex.cont) :
  pat ≠ "" → Js.toLowerCase w = Js.toLowerCase pat →
  Regex.run (Regex.lit pat) (w +:+ rest) cap k = k rest cap.
Proof.
  revert w. induction pat as [|c pat IH]; intros w Hne Hw; [done|].
  destruct w as [|x w]; [discriminate Hw|].
  simpl in Hw. injection Hw as Hx Hw.
  change (String x w +:+ rest) with (String x (w +:+ rest)).
  destruct pat as [|d pat].
  - apply toLowerCase_empty in Hw as ->. simpl.
    rewrite Hx, Ascii.eqb_refl. reflexivity.
  - change (Regex.lit (String c (String d pat)))
      with (Regex.Seq (Regex.Char c) (Regex.lit (String d pat))).
    simpl Regex.run at 1. rewrite Hx, Ascii.eqb_refl.
    by apply IH.
Qed.

Lemma removeFirstMatch_head (pat w rest : string) :
  pat ≠ "" → Js.toLowerCase w = Js.toLowerCase pat →
  App.removeFirstMatch (Regex.lit pat) (w +:+ rest) = rest.
Proof.
  intros Hne Hw.
  assert (Hunfold : ∀ r s,
    App.removeFirstMatch r s
    = match Regex.run r s None (fun rest _ => Some (Some rest)) with
      | Some (Some rest) => rest
      | _ => match s with
             | EmptyString => EmptyString
             | String c s' => String c (App.removeFirstMatch r s')
             end
      end) by (intros r s; by destruct s).
  by rewrite Hunfold, run_lit.
Qed.

(** X19.  [handleCommand] always shows and speaks the response of the
    dispatcher to the cleaned command, between switching the loading flag
    on and off; its generic error message is never produced and it adds
    nothing to the console. *)
Theorem handleCommand_trace (command : string) (console : list ConsoleEntry) :
  ∃ console' response,
    processCommand env svc (App.cleanCommand command) settings console
    = (console', Normal response)
    ∧ App.handleCommand env svc settings command console
      = (console', [ App.SetIsLoading true; App.SetResponse (message response);
                     App.Speak (message response); App.SetIsLoading false ]).
Proof.
  destruct (handler_fulfilled env svc settings _ _ console
              (parseCommand_payload_fits (App.cleanCommand command)))
    as (console' & response & Hp).
  fold (processCommand env svc (App.cleanCommand command) settings) in Hp.
  exists console', response. split; [exact Hp|].
  unfold App.handleCommand. cbv zeta. by rewrite Hp.
Qed.

(** X20.  An utterance that begins with the wake phrase, in any letter
    case, is answered as the rest of the utterance is: the page shows and
    speaks the dispatcher's response to what follows "hey jarvis". *)
Theorem handleCommand_wake_phrase (wake rest : string) (console : list ConsoleEntry) :
  Js.toLowerCase wake = "hey jarvis" →
  ∃ console' response,
    processCommand env svc rest settings console = (console', Normal response)
    ∧ App.handleCommand env svc settings (wake +:+ rest) console
      = (console', [ App.SetIsLoading true; App.SetResponse (message response);
                     App.Speak (message response); App.SetIsLoading false ]).
Proof.
  intros Hwake.
  destruct (handler_fulfilled env svc settings _ _ console (parseCommand_payload_fits rest))
    as (console' & response & Hp).
  fold (processCommand env svc rest settings) in Hp.
  exists console', response. split; [exact Hp|].
  unfold App.handleCommand, App.cleanCommand, App.wakePhrase. cbv zeta.
  rewrite (removeFirstMatch_head "hey jarvis" wake rest) by done.
  rewrite (processCommand_parse (Js.trim rest) rest (parseCommand_trim rest)).
  by rewrite Hp.
Qed.

End Caller.

Lemma handleCommand_wake_phrase_witness :
  Js.toLowerCase "Hey JARVIS" = "hey jarvis"
  ∧ ∃ console' response,
      processCommand Sample.morning (Sample.serving Sample.inbox []) ", read me my emails"
        (Sample.settingsWith concise) []
      = (console', Normal response)
      ∧ App.handleCommand Sample.morning (Sample.serving Sample.inbox [])
          (Sample.settingsWith concise) ("Hey JARVIS" +:+ ", read me my emails") []
        = (console', [ App.SetIsLoading true; App.SetResponse (message response);
                       App.Speak (message response); App.SetIsLoading false ]).
Proof.
  split; [reflexivity|].
  apply (handleCommand_wake_phrase Sample.morning (Sample.serving Sample.inbox [])
           (Sample.settingsWith concise) "Hey JARVIS" ", read me my emails" []).
  reflexivity.
Defined.

(** ** Chunks for the speech synthesizer *)

Section StringFacts.

Lemma length_append (a b : string) :
  String.length (a +:+ b) = (String.length a + String.length b)%nat.
Proof.
  induction a as [|c a IH]; [done|].
  change (String c a +:+ b) with (String c (a +:+ b)). simpl. by rewrite IH.
Qed.

Lemma substring0_length (n : nat) (s : string) :
  String.length (Js.substring0 n s) = Nat.min n (String.length s).
Proof.
  unfold Js.substring0. revert n. induction s as [|c s IH]; intros [|n]; simpl; try done.
  by rewrite IH.
Qed.

Lemma sliceFrom_length (n : nat) (s : string) :
  (n <= String.length s)%nat →
  String.length (Speech.sliceFrom n s) = (String.length s - n)%nat.
Proof.
  unfold Speech.sliceFrom. revert n. induction s as [|c s IH]; intros [|n] Hn; simpl in *;
    try lia.
  - f_equal. clear IH Hn.
    induction s as [|d s IHs]; simpl; [done|]. by rewrite IHs.
  - rewrite IH by lia. reflexivity.
Qed.

Lemma substring0_all (s : string) : String.substring 0 (String.length s) s = s.
Proof. induction s as [|c s IH]; simpl; [done|]. by rewrite IH. Qed.

Lemma substring0_sliceFrom (n : nat) (s : string) :
  (n <= String.length s)%nat →
  Js.substring0 n s +:+ Speech.sliceFrom n s = s.
Proof.
  unfold Js.substring0, Speech.sliceFrom.
  revert n. induction s as [|c s IH]; intros [|n] Hn; simpl in *; try lia; try done.
  - change ("" +:+ String c (String.substring 0 (String.length s) s))
      with (String c (String.substring 0 (String.length s) s)).
    by rewrite substring0_all.
  - change (String c (String.substring 0 n s) +:+ String.substring n (String.length s - n) s)
      with (String c (String.substring 0 n s +:+ String.substring n (String.length s - n) s)).
    rewrite IH by lia. reflexivity.
Qed.

Lemma ink_app (a b : string) : Speech.ink (a +:+ b) = Speech.ink a ++ Speech.ink b.
Proof.
  induction a as [|c a IH]; [done|].
  change (String c a +:+ b) with (String c (a +:+ b)). simpl.
  destruct (Js.isSpace c); by rewrite IH.
Qed.

Lemma length_zero_empty (s : string) : String.length s = 0%nat ↔ s = "".
Proof. by destruct s. Qed.

End StringFacts.

Section Chunks.
Import Speech.

Lemma inkOf_app (l k : list string) : Laws.inkOf (l ++ k) = Laws.inkOf l ++ Laws.inkOf k.
Proof. unfold Laws.inkOf. apply flat_map_app. Qed.

Lemma inkOf_consPiece (c : ascii) (pieces : list string) :
  Laws.inkOf (consPiece c pieces)
  = (if Js.isSpace c then [] else [c]) ++ Laws.inkOf pieces.
Proof.
  unfold Laws.inkOf. by destruct pieces as [|p ps]; simpl; destruct (Js.isSpace c).
Qed.

(** A split loses white space only. *)
Lemma splitAfter_ink (isMark : ascii → bool) (afterMark skipping : bool) (s : string) :
  Laws.inkOf (splitAfter isMark afterMark skipping s) = ink s.
Proof.
  revert afterMark skipping. induction s as [|c s IH]; intros afterMark skipping; [done|].
  simpl. destruct skipping.
  - destruct (Js.isSpace c) eqn:Ec; [apply IH|].
    by rewrite inkOf_consPiece, Ec, IH.
  - destruct (afterMark && Js.isSpace c) eqn:E.
    + apply andb_true_iff in E as [_ ->]. change (Laws.inkOf ("" :: ?l)) with (Laws.inkOf l).
      apply IH.
    + rewrite inkOf_consPiece, IH. by destruct (Js.isSpace c).
Qed.

(** No piece of a split is longer than the string. *)
Lemma splitAfter_length (isMark : ascii → bool) (afterMark skipping : bool) (s : string) :
  Forall (fun p => (String.length p <= String.length s)%nat)
         (splitAfter isMark afterMark skipping s).
Proof.
  revert afterMark skipping. induction s as [|c s IH]; intros afterMark skipping.
  - constructor; [done|constructor].
  - assert (Hcons : ∀ a b,
      Forall (fun p => (String.length p <= String.length (String c s))%nat)
             (consPiece c (splitAfter isMark a b s))).
    { intros a b. specialize (IH a b).
      destruct (splitAfter isMark a b s) as [|p ps]; simpl.
      - constructor; [simpl; lia|constructor].
      - apply Forall_cons in IH as [Hp Hps]. constructor; [simpl; lia|].
        eapply Forall_impl; [exact Hps|]. simpl. intros; lia. }
    assert (Hskip : ∀ a b,
      Forall (fun p => (String.length p <= String.length (String c s))%nat)
             (splitAfter isMark a b s)).
    { intros a b. eapply Forall_impl; [apply IH|]. simpl. intros; lia. }
    simpl. destruct skipping.
    + destruct (Js.isSpace c); [apply Hskip|apply Hcons].
    + destruct (afterMark && Js.isSpace c); [|apply Hcons].
      constructor; [simpl; lia|apply Hskip].
Qed.

(** The first piece of a split holds the first code unit. *)
Lemma splitAfter_head (isMark : ascii → bool) (c : ascii) (s : string) :
  ∃ p ps, splitAfter isMark false false (String c s) = String c p :: ps.
Proof.
  simpl. destruct (splitAfter isMark (isMark c) false s) as [|p ps]; simpl; eauto.
Qed.

Section Bounded.
Context (maxLength : nat) (Hmax : (1 <= maxLength)%nat).

(** With a positive [maxLength] the force-split ends, in pieces of at
    most [maxLength] code units that make up the clause. *)
Lemma forceSplit_ends (fuel : nat) (clause : string) (chunks : list string) :
  (String.length clause <= fuel)%nat →
  ∃ pieces,
    forceSplit fuel maxLength clause chunks = Some (chunks ++ pieces)
    ∧ Forall (fun p => (1 <= String.length p <= maxLength)%nat) pieces
    ∧ Laws.inkOf pieces = ink clause.
Proof.
  revert clause chunks. induction fuel as [|fuel IH]; intros clause chunks Hfuel.
  - apply Nat.le_0_r, length_zero_empty in Hfuel as ->.
    exists []. simpl. by rewrite app_nil_r.
  - simpl. destruct (Nat.ltb_spec 0 (String.length clause)) as [Hpos|Hzero].
    + set (n := Nat.min (String.length clause) maxLength).
      assert (Hn : (1 <= n <= String.length clause)%nat) by lia.
      destruct (IH (sliceFrom n clause) (chunks ++ [Js.substring0 n clause]))
        as (pieces & Hrun & Hok & Hink).
      { rewrite sliceFrom_length by lia. lia. }
      exists (Js.substring0 n clause :: pieces).
      split; [by rewrite Hrun, <- app_assoc|]. split.
      * constructor; [|exact Hok]. rewrite substring0_length. lia.
      * unfold Laws.inkOf in *. simpl. rewrite Hink, <- ink_app.
        by rewrite substring0_sliceFrom by lia.
    + assert (clause = "") as -> by (apply length_zero_empty; lia).
      exists []. by rewrite app_nil_r.
Qed.

Lemma appendPiece_length (cur piece : string) :
  (String.length cur + String.length piece <= maxLength)%nat →
  (String.length (appendPiece cur piece) <= maxLength + 1)%nat
  ∧ ink (appendPiece cur piece) = ink cur ++ ink piece.
Proof.
  intros Hle. unfold appendPiece. rewrite !ink_app, !length_append.
  destruct (bool_decide (cur ≠ "")); simpl; split; try lia; done.
Qed.

Lemma push_ok (chunks : list string) (cur : string) :
  Forall (Laws.chunkOk maxLength) chunks →
  (1 <= String.length cur <= maxLength + 1)%nat →
  Forall (Laws.chunkOk maxLength) (chunks ++ [cur]).
Proof. intros Hc Hcur. apply Forall_app. split; [done|]. constructor; [done|constructor]. Qed.

(** [if (currentChunk) chunks.push(currentChunk)] *)
Lemma flush_ok (acc : Acc) :
  Laws.accOk maxLength acc →
  Forall (Laws.chunkOk maxLength)
         (if bool_decide (currentChunk acc ≠ "") then chunks acc ++ [currentChunk acc]
          else chunks acc)
  ∧ Laws.inkOf (if bool_decide (currentChunk acc ≠ "") then chunks acc ++ [currentChunk acc]
                else chunks acc)
    = Laws.accInk acc.
Proof.
  intros [Hc Hcur]. unfold Laws.accInk.
  destruct (bool_decide (currentChunk acc ≠ "")) eqn:E.
  - apply bool_decide_eq_true in E. split.
    + apply push_ok; [done|]. split; [|done].
      destruct (currentChunk acc); [done|simpl; lia].
    + rewrite inkOf_app. unfold Laws.inkOf at 2. simpl. by rewrite app_nil_r.
  - apply bool_decide_eq_false in E.
    assert (currentChunk acc = "") as -> by (by destruct (decide (currentChunk acc = ""))).
    split; [done|]. simpl. by rewrite app_nil_r.
Qed.

Lemma clauseStep_ok (fuel : nat) (acc : Acc) (clause : string) :
  (String.length clause <= fuel)%nat → Laws.accOk maxLength acc →
  ∃ acc', clauseStep fuel maxLength acc clause = Some acc'
          ∧ Laws.accOk maxLength acc'
          ∧ Laws.accInk acc' = Laws.accInk acc ++ ink clause.
Proof.
  intros Hfuel Hacc. unfold clauseStep.
  destruct (Nat.leb_spec (String.length (currentChunk acc) + String.length clause) maxLength)
    as [Hfit|Hover].
  - destruct (appendPiece_length _ _ Hfit) as [Hlen Hink].
    eexists. split; [reflexivity|]. split.
    + split; [apply Hacc|exact Hlen].
    + unfold Laws.accInk. simpl. by rewrite Hink, app_assoc.
  - destruct (flush_ok acc Hacc) as [Hflush Hfink].
    set (flushed := if bool_decide (currentChunk acc ≠ "")
                    then chunks acc ++ [currentChunk acc] else chunks acc) in *.
    cbv zeta.
    destruct (Nat.ltb_spec maxLength (String.length clause)) as [Hlong|Hshort].
    + destruct (forceSplit_ends fuel clause flushed Hfuel) as (pieces & Hrun & Hok & Hink).
      rewrite Hrun. eexists. split; [reflexivity|]. split.
      * split; [|simpl; lia]. simpl. apply Forall_app. split; [done|].
        eapply Forall_impl; [exact Hok|]. unfold Laws.chunkOk. intros; lia.
      * unfold Laws.accInk. simpl. by rewrite inkOf_app, Hfink, Hink, app_nil_r.
    + eexists. split; [reflexivity|]. split.
      * split; [done|simpl; lia].
      * unfold Laws.accInk at 1. simpl. by rewrite Hfink.
Qed.

Lemma clauseLoop_ok (fuel : nat) (clauses : list string) (acc : Acc) :
  Forall (fun c => (String.length c <= fuel)%nat) clauses → Laws.accOk maxLength acc →
  ∃ acc', clauseLoop fuel maxLength acc clauses = Some acc'
          ∧ Laws.accOk maxLength acc'
          ∧ Laws.accInk acc' = Laws.accInk acc ++ Laws.inkOf clauses.
Proof.
  revert acc. induction clauses as [|clause clauses IH]; intros acc Hfuel Hacc.
  - exists acc. unfold Laws.inkOf. simpl. by rewrite app_nil_r.
  - apply Forall_cons in Hfuel as [Hc Hcs].
    destruct (clauseStep_ok fuel acc clause Hc Hacc) as (acc1 & Hstep & Hok1 & Hink1).
    destruct (IH acc1 Hcs Hok1) as (acc2 & Hloop & Hok2 & Hink2).
    exists acc2. simpl. rewrite Hstep. simpl. split; [exact Hloop|]. split; [exact Hok2|].
    rewrite Hink2, Hink1. unfold Laws.inkOf. simpl. by rewrite app_assoc.
Qed.

Lemma sentenceStep_ok (fuel : nat) (acc : Acc) (sentence : string) :
  (String.length sentence <= fuel)%nat → Laws.accOk maxLength acc →
  ∃ acc', sentenceStep fuel maxLength acc sentence = Some acc'
          ∧ Laws.accOk maxLength acc'
          ∧ Laws.accInk acc' = Laws.accInk acc ++ ink sentence.
Proof.
  intros Hfuel Hacc. unfold sentenceStep.
  destruct (Nat.ltb_spec maxLength (String.length sentence)) as [Hlong|Hshort].
  - destruct (clauseLoop_ok fuel (splitClauses sentence) acc) as (acc' & Hloop & Hok & Hink);
      [|done|].
    + eapply Forall_impl; [apply splitAfter_length|]. simpl. intros; lia.
    + exists acc'. split; [exact Hloop|]. split; [exact Hok|].
      rewrite Hink. unfold splitClauses. by rewrite splitAfter_ink.
  - destruct (Nat.leb_spec (String.length (currentChunk acc) + String.length sentence)
                           maxLength) as [Hfit|Hover].
    + destruct (appendPiece_length _ _ Hfit) as [Hlen Hink].
      eexists. split; [reflexivity|]. split.
      * split; [apply Hacc|exact Hlen].
      * unfold Laws.accInk. simpl. by rewrite Hink, app_assoc.
    + eexists. split; [reflexivity|]. destruct Hacc as [Hc Hcur]. split.
      * split; [|simpl; lia]. simpl. apply push_ok; [done|lia].
      * unfold Laws.accInk. simpl. rewrite inkOf_app. unfold Laws.inkOf at 2. simpl.
        by rewrite app_nil_r.
Qed.

Lemma sentenceLoop_ok (fuel : nat) (sentences : list string) (acc : Acc) :
  Forall (fun c => (String.length c <= fuel)%nat) sentences → Laws.accOk maxLength acc →
  ∃ acc', sentenceLoop fuel maxLength acc sentences = Some acc'
          ∧ Laws.accOk maxLength acc'
          ∧ Laws.accInk acc' = Laws.accInk acc ++ Laws.inkOf sentences.
Proof.
  revert acc. induction sentences as [|sentence sentences IH]; intros acc Hfuel Hacc.
  - exists acc. unfold Laws.inkOf. simpl. by rewrite app_nil_r.
  - apply Forall_cons in Hfuel as [Hc Hcs].
    destruct (sentenceStep_ok fuel acc sentence Hc Hacc) as (acc1 & Hstep & Hok1 & Hink1).
    destruct (IH acc1 Hcs Hok1) as (acc2 & Hloop & Hok2 & Hink2).
    exists acc2. simpl. rewrite Hstep. simpl. split; [exact Hloop|]. split; [exact Hok2|].
    rewrite Hink2, Hink1. unfold Laws.inkOf. simpl. by rewrite app_assoc.
Qed.

(** A text longer than [maxLength]: the function returns well-formed
    chunks that hold the text, white space apart. *)
Lemma long_text_chunks (text : string) :
  (maxLength < String.length text)%nat →
  ∃ chunks, splitTextIntoChunks text maxLength = Some chunks
            ∧ Forall (Laws.chunkOk maxLength) chunks
            ∧ Laws.inkOf chunks = ink text.
Proof.
  intros Hlong. unfold splitTextIntoChunks, splitTextIntoChunksFuel.
  destruct (Nat.leb_spec (String.length text) maxLength); [lia|].
  destruct (sentenceLoop_ok (String.length text) (splitSentences text)
              {| chunks := []; currentChunk := "" |})
    as (acc & Hloop & Hok & Hink).
  - apply splitAfter_length.
  - split; [constructor|simpl; lia].
  - rewrite Hloop. simpl. destruct (flush_ok acc Hok) as [Hflush Hfink].
    eexists. split; [reflexivity|]. split; [exact Hflush|].
    rewrite Hfink, Hink. unfold splitSentences. by rewrite splitAfter_ink.
Qed.

End Bounded.

(** X21.  With a positive [maxLength], [splitTextIntoChunks] returns, and
    no chunk is longer than [maxLength + 1]: joining two pieces with a
    space can overshoot the limit by one.  A text within the limit is
    returned whole; no chunk of a text that is not empty is empty. *)
Theorem splitTextIntoChunks_bounded (text : string) (maxLength : nat) :
  (1 <= maxLength)%nat →
  ∃ chunks,
    splitTextIntoChunks text maxLength = Some chunks
    ∧ Forall (fun chunk => (String.length chunk <= maxLength + 1)%nat) chunks
    ∧ (text ≠ "" → Forall (fun chunk => chunk ≠ "") chunks)
    ∧ ((String.length text <= maxLength)%nat → chunks = [text]).
Proof.
  intros Hmax.
  destruct (Nat.le_gt_cases (String.length text) maxLength) as [Hshort|Hlong].
  - exists [text]. unfold splitTextIntoChunks, splitTextIntoChunksFuel.
    destruct (Nat.leb_spec (String.length text) maxLength); [|lia].
    split; [done|]. split; [constructor; [lia|constructor]|]. split; [|done].
    intros Hne. constructor; [done|constructor].
  - destruct (long_text_chunks maxLength Hmax text Hlong) as (chunks & Hrun & Hok & _).
    exists chunks. split; [exact Hrun|]. split; [|split; [|lia]].
    + eapply Forall_impl; [exact Hok|]. unfold Laws.chunkOk. intros; lia.
    + intros _. eapply Forall_impl; [exact Hok|]. unfold Laws.chunkOk.
      intros chunk Hc ->. simpl in Hc. lia.
Qed.

(** X22.  The chunks hold the text: apart from white space, the code
    units of the chunks, in order, are those of the text; nothing is
    dropped, repeated or reordered. *)
Theorem splitTextIntoChunks_keeps_text (text : string) (maxLength : nat)
    (chunks : list string) :
  (1 <= maxLength)%nat →
  splitTextIntoChunks text maxLength = Some chunks →
  Laws.inkOf chunks = ink text.
Proof.
  intros Hmax Hrun.
  destruct (Nat.le_gt_cases (String.length text) maxLength) as [Hshort|Hlong].
  - unfold splitTextIntoChunks, splitTextIntoChunksFuel in Hrun.
    destruct (Nat.leb_spec (String.length text) maxLength); [|lia].
    injection Hrun as <-. unfold Laws.inkOf. simpl. by rewrite app_nil_r.
  - destruct (long_text_chunks maxLength Hmax text Hlong) as (chunks' & Hrun' & _ & Hink).
    rewrite Hrun in Hrun'. by injection Hrun' as ->.
Qed.

End Chunks.

Lemma splitTextIntoChunks_bounded_witness :
  ∃ chunks,
    Speech.splitTextIntoChunks "ab. cd. efgh, ijklmnopqrstu vw, x. yz" 6 = Some chunks
    ∧ Forall (fun chunk => (String.length chunk <= 6 + 1)%nat) chunks
    ∧ ("ab. cd. efgh, ijklmnopqrstu vw, x. yz" ≠ "" →
       Forall (fun chunk => chunk ≠ "") chunks)
    ∧ ((String.length "ab. cd. efgh, ijklmnopqrstu vw, x. yz" <= 6)%nat →
       chunks = ["ab. cd. efgh, ijklmnopqrstu vw, x. yz"]).
Proof.
  apply (splitTextIntoChunks_bounded "ab. cd. efgh, ijklmnopqrstu vw, x. yz" 6). lia.
Defined.

Lemma splitTextIntoChunks_keeps_text_witness :
  Speech.splitTextIntoChunks "ab. cd. efgh, ijklmnopqrstu vw, x. yz" 6
  = Some ["ab. cd."; "efgh,"; "ijklmn"; "opqrst"; "u vw,"; "x. yz"]
  ∧ Laws.inkOf ["ab. cd."; "efgh,"; "ijklmn"; "opqrst"; "u vw,"; "x. yz"]
    = Speech.ink "ab. cd. efgh, ijklmnopqrstu vw, x. yz".
Proof.
  split; [reflexivity|].
  apply (splitTextIntoChunks_keeps_text "ab. cd. efgh, ijklmnopqrstu vw, x. yz" 6);
    [lia|reflexivity].
Defined.

(** The bound is reached: two sentences of three code units joined under
    a limit of six make a chunk of seven. *)
Example splitTextIntoChunks_overshoot :
  Speech.splitTextIntoChunks "ab. cd. efgh" 6 = Some ["ab. cd."; "efgh"]
  ∧ String.length "ab. cd." = 7%nat.
Proof. split; reflexivity. Qed.

Section Diverges.
Import Speech.

Lemma forceSplit_zero (fuel : nat) (clause : string) (chunks : list string) :
  clause ≠ "" → forceSplit fuel 0 clause chunks = None.
Proof.
  intros Hne. revert chunks. induction fuel as [|fuel IH]; intros chunks; simpl.
  - destruct clause; [done|reflexivity].
  - destruct (Nat.ltb_spec 0 (String.length clause)) as [Hpos|Hzero].
    + rewrite Nat.min_0_r. unfold sliceFrom. rewrite Nat.sub_0_r, substring0_all. apply IH.
    + destruct clause; [done|simpl in Hzero; lia].
Qed.

(** X23.  With [maxLength] zero and a text that is not empty the function
    does not return: the loop that force-splits the first clause takes
    slices of no code unit and never shortens what remains, however many
    turns it is given. *)
Theorem splitTextIntoChunks_zero_limit (text : string) (fuel : nat) :
  text ≠ "" → splitTextIntoChunksFuel fuel text 0 = None.
Proof.
  intros Hne. destruct text as [|c text]; [done|].
  unfold splitTextIntoChunksFuel. cbn [String.length Nat.leb].
  unfold splitSentences.
  destruct (splitAfter_head isSentenceEnd c text) as (p & ps & ->).
  cbn [sentenceLoop]. unfold sentenceStep. cbn [String.length Nat.ltb Nat.leb].
  unfold splitClauses.
  destruct (splitAfter_head isComma c p) as (p' & ps' & ->).
  cbn [clauseLoop]. unfold clauseStep.
  cbn [currentChunk chunks String.length Nat.add Nat.ltb Nat.leb].
  rewrite forceSplit_zero by done. reflexivity.
Qed.

End Diverges.

Lemma splitTextIntoChunks_zero_limit_witness :
  "abc" ≠ "" ∧ Speech.splitTextIntoChunksFuel 1000 "abc" 0 = None.
Proof.
  split; [discriminate|].
  apply (splitTextIntoChunks_zero_limit "abc" 1000). discriminate.
Defined.

Lemma formatTime_shape_witness :
  Laws.timeOfDay Sample.morning (Sample.day0 + 12 * Sample.hour) / Date.msPerHour = 12
  ∧ formatTime Sample.morning (Sample.day0 + 12 * Sample.hour) = "12:00pm".
Proof.
  split; [reflexivity|].
  destruct (formatTime_shape Sample.morning (Sample.day0 + 12 * Sample.hour))
    as (_ & _ & Hnoon & Htext).
  rewrite Htext, (Hnoon (or_intror eq_refl)). reflexivity.
Defined.

(** ** The wake phrase: the test before the call and the cut inside it *)

Section WakePhrase.
Context (pat : string) (Hpat : pat ≠ "") (Hlower : Js.toLowerCase pat = pat).

Lemma toLowerCase_length (s : string) : String.length (Js.toLowerCase s) = String.length s.
Proof. induction s as [|c s IH]; simpl; [done|]. by rewrite IH. Qed.

(** The lower-cased input starts with the literal: the input starts with
    the literal in some letter case. *)
Lemma prefix_lower_split (p s : string) :
  String.prefix p (Js.toLowerCase s) = true →
  ∃ w rest, s = w +:+ rest ∧ Js.toLowerCase w = p.
Proof.
  revert s. induction p as [|c p IH]; intros s Hp.
  - by exists ""%string, s.
  - destruct s as [|x s]; [discriminate Hp|]. simpl in Hp.
    destruct (ascii_dec c (Js.lowerChar x)) as [->|]; [|discriminate Hp].
    destruct (IH s Hp) as (w & rest & -> & <-).
    by exists (String x w), rest.
Qed.

(** It does not: the literal does not match at the head. *)
Lemma run_lit_fails (p s : string) (cap : option string) (k : Regex.cont) :
  p ≠ "" → Js.toLowerCase p = p →
  String.prefix p (Js.toLowerCase s) = false →
  Regex.run (Regex.lit p) s cap k = None.
Proof.
  revert s. induction p as [|c p IH]; intros s Hne Hlow Hp; [done|].
  simpl in Hlow. injection Hlow as Hc Hlow.
  destruct p as [|d p].
  - destruct s as [|x s]; [done|]. simpl in *.
    destruct (ascii_dec c (Js.lowerChar x)) as [->|Hx]; [by destruct s|].
    rewrite Hc. destruct (Ascii.eqb_spec (Js.lowerChar x) c); [congruence|done].
  - change (Regex.lit (String c (String d p)))
      with (Regex.Seq (Regex.Char c) (Regex.lit (String d p))).
    destruct s as [|x s]; [done|]. simpl Regex.run at 1.
    rewrite Hc. destruct (Ascii.eqb_spec (Js.lowerChar x) c) as [Hx|]; [|done].
    apply IH; [done|done|].
    simpl in Hp. destruct (ascii_dec c (Js.lowerChar x)); [exact Hp|congruence].
Qed.

Lemma removeFirstMatch_unfold (r : Regex.regex) (s : string) :
  App.removeFirstMatch r s
  = match Regex.run r s None (fun rest _ => Some (Some rest)) with
    | Some (Some rest) => rest
    | _ => match s with
           | EmptyString => EmptyString
           | String c s' => String c (App.removeFirstMatch r s')
           end
    end.
Proof. by destruct s. Qed.

(** The literal occurs, in some letter case: the input splits around its
    leftmost occurrence, which is cut out, and what stands before and
    after it is kept. *)
Lemma removeFirstMatch_leftmost (s : string) :
  Js.includes (Js.toLowerCase s) pat = true →
  ∃ before wake after,
    s = before +:+ wake +:+ after
    ∧ Js.toLowerCase wake = pat
    ∧ (∀ before' wake' after',
         s = before' +:+ wake' +:+ after' → Js.toLowerCase wake' = pat →
         (String.length before <= String.length before')%nat)
    ∧ App.removeFirstMatch (Regex.lit pat) s = before +:+ after.
Proof.
  induction s as [|c s IH]; intros Hin.
  - simpl in Hin. rewrite orb_false_r in Hin. by destruct pat.
  - change (Js.toLowerCase (String c s))
      with (String (Js.lowerChar c) (Js.toLowerCase s)) in Hin.
    cbn [Js.includes] in Hin.
    destruct (String.prefix pat (String (Js.lowerChar c) (Js.toLowerCase s))) eqn:Hp.
    + destruct (prefix_lower_split pat (String c s) Hp) as (w & rest & Hs & Hw).
      exists ""%string, w, rest.
      split; [exact Hs|]. split; [exact Hw|]. split.
      * intros before' wake' after' _ _. simpl. lia.
      * rewrite Hs. apply removeFirstMatch_head; [done|]. by rewrite Hlower.
    + simpl in Hin.
      destruct (IH Hin) as (before & wake & after & Hs & Hw & Hleft & Hcut).
      exists (String c before), wake, after.
      split; [by rewrite Hs at 1|]. split; [exact Hw|]. split.
      * intros [|x before'] wake' after' Heq Hw'.
        -- exfalso.
           change (""%string +:+ wake' +:+ after') with (wake' +:+ after') in Heq.
           change (String (Js.lowerChar c) (Js.toLowerCase s))
             with (Js.toLowerCase (String c s)) in Hp.
           rewrite Heq, toLowerCase_app, Hw', prefix_here in Hp. discriminate Hp.
        -- change (String x before' +:+ wake' +:+ after')
             with (String x (before' +:+ wake' +:+ after')) in Heq.
           injection Heq as _ Heq. specialize (Hleft before' wake' after' Heq Hw').
           simpl. lia.
      * rewrite removeFirstMatch_unfold, run_lit_fails by done.
        by rewrite Hcut.
Qed.

(** The literal does not occur: nothing is cut. *)
Lemma removeFirstMatch_absent (s : string) :
  Js.includes (Js.toLowerCase s) pat = false →
  App.removeFirstMatch (Regex.lit pat) s = s.
Proof.
  induction s as [|c s IH]; intros Hin; rewrite removeFirstMatch_unfold.
  - rewrite run_lit_fails; [done..|]. by destruct pat.
  - change (Js.toLowerCase (String c s))
      with (String (Js.lowerChar c) (Js.toLowerCase s)) in Hin.
    cbn [Js.includes] in Hin. apply orb_false_iff in Hin as [Hp Hin].
    rewrite run_lit_fails by done. by rewrite IH.
Qed.

End WakePhrase.

(** X24.  The test of [toggleListening] and the cut of [handleCommand]
    agree: a transcript that passes the test splits into what stands
    before its leftmost "hey jarvis" (in any letter case), that
    occurrence, and what follows it, and the cleaned command is what
    stands before joined to what follows, trimmed; a transcript without
    the phrase would be trimmed only. *)
Theorem wake_phrase_cut (transcript : string) :
  (App.heardWakePhrase transcript = true →
   ∃ before wake after,
     transcript = before +:+ wake +:+ after
     ∧ Js.toLowerCase wake = "hey jarvis"
     ∧ (∀ before' wake' after',
          transcript = before' +:+ wake' +:+ after' →
          Js.toLowerCase wake' = "hey jarvis" →
          (String.length before <= String.length before')%nat)
     ∧ App.cleanCommand transcript = Js.trim (before +:+ after))
  ∧ (Js.includes (Js.toLowerCase transcript) "hey jarvis" = false →
     App.cleanCommand transcript = Js.trim transcript).
Proof.
  unfold App.cleanCommand, App.wakePhrase. split.
  - intros Hheard. apply andb_true_iff in Hheard as [_ Hin].
    destruct (removeFirstMatch_leftmost "hey jarvis" ltac:(done) eq_refl transcript Hin)
      as (before & wake & after & Hs & Hw & Hleft & Hcut).
    exists before, wake, after. by rewrite Hcut.
  - intros Hno. by rewrite (removeFirstMatch_absent "hey jarvis").
Qed.

Lemma wake_phrase_cut_witness :
  App.heardWakePhrase "please HEY Jarvis read my agenda" = true
  ∧ ∃ before wake after,
      "please HEY Jarvis read my agenda" = before +:+ wake +:+ after
      ∧ Js.toLowerCase wake = "hey jarvis"
      ∧ (∀ before' wake' after',
           "please HEY Jarvis read my agenda" = before' +:+ wake' +:+ after' →
           Js.toLowerCase wake' = "hey jarvis" →
           (String.length before <= String.length before')%nat)
      ∧ App.cleanCommand "please HEY Jarvis read my agenda" = Js.trim (before +:+ after).
Proof.
  split; [reflexivity|].
  apply (proj1 (wake_phrase_cut "please HEY Jarvis read my agenda")). reflexivity.
Defined.

(** ** Previews of bodies and descriptions *)

(** X25.  A body or description of at most 100 code units is previewed
    whole; a longer one is cut to its first 100 code units followed by
    three dots, so a preview never exceeds 103 code units. *)
Theorem preview_bounded (s : string) :
  (String.length (preview s) <= 103)%nat
  ∧ ((String.length s <= 100)%nat → preview s = s)
  ∧ ((100 < String.length s)%nat →
     preview s = Js.substring0 100 s +:+ "..."
     ∧ String.length (preview s) = 103%nat
     ∧ String.prefix (Js.substring0 100 s) s = true).
Proof.
  unfold preview.
  destruct (Nat.ltb_spec 100 (String.length s)) as [Hlong|Hshort].
  - assert (Hlen : String.length (Js.substring0 100 s +:+ "...") = 103%nat).
    { rewrite length_append, substring0_length.
      change (String.length "...") with 3%nat. lia. }
    split; [lia|]. split; [intros; exfalso; lia|]. intros _. split; [done|]. split; [done|].
    rewrite <- (substring0_sliceFrom 100 s) at 2 by lia. apply prefix_here.
  - split; [lia|]. split; [done|intros; exfalso; lia].
Qed.

Lemma preview_bounded_witness :
  (String.length (Email.body Sample.older) <= 100)%nat
  ∧ preview (Email.body Sample.older) = Email.body Sample.older.
Proof.
  split; [vm_compute; lia|].
  apply (proj1 (proj2 (preview_bounded (Email.body Sample.older)))).
  vm_compute. lia.
Defined.
